(** * Course planner (CS-300 original artifact and CS-499 enhanced artifact)

    A shallow embedding of the two [ProjectTwo.cpp] programs: the string
    helpers they share, the CSV loader, the report functions, and the
    enhanced program's dependency graph and topological sort.

    Conventions of the embedding:
    - [std::string] is [string] (a sequence of 8-bit characters), compared
      with [String.le], the lexicographic order on character codes that
      [std::string::operator<] implements;
    - [std::unordered_map<std::string, V>] is [gmap string V]; the order in
      which the program iterates over such a map is unspecified in C++ and
      is a parameter of the model (Section [HashOrder]);
    - [std::set<std::string>] is [gset string] whose [begin()] is the least
      element for [String.le];
    - the [int] in-degrees are integers in [Z]; lemmas
      [buildGraph_indegree_bounds] and [kahn_reachable_indegree_bounds] show
      that they stay between 0 and the length of a prerequisite list;
    - [std::cout] and [std::cerr] are the text written to them. *)

From Stdlib Require Import Ascii.
From stdpp Require Import gmap strings list fin_maps sorting pretty relations.


(** ** Characters: the <cctype> predicates in the default "C" locale *)

Definition code (ch : ascii) : N := N_of_ascii ch.

Definition isspace (ch : ascii) : bool :=
  (code ch =? 32)%N || ((9 <=? code ch)%N && (code ch <=? 13)%N).

Definition isdigit (ch : ascii) : bool :=
  (48 <=? code ch)%N && (code ch <=? 57)%N.

Definition isupper (ch : ascii) : bool :=
  (65 <=? code ch)%N && (code ch <=? 90)%N.

Definition islower (ch : ascii) : bool :=
  (97 <=? code ch)%N && (code ch <=? 122)%N.

Definition isalnum (ch : ascii) : bool :=
  isdigit ch || isupper ch || islower ch.

Definition toupper (ch : ascii) : ascii :=
  if islower ch then ascii_of_N (code ch - 32) else ch.

(** ** String helpers (identical in both programs) *)

Definition nl : string := String "010"%char "".
Definition dquote : string := String "034"%char "".

(** [ltrim]: erase up to the first character that is not a space. *)
Fixpoint ltrim (s : string) : string :=
  match s with
  | "" => ""
  | String ch r => if isspace ch then ltrim r else s
  end.

(** [rtrim]: the same search through the reverse iterators. *)
Definition rtrim (s : string) : string :=
  String.rev (ltrim (String.rev s)).

Definition trim (s : string) : string := rtrim (ltrim s).

Definition stripBOM (s : string) : string :=
  match s with
  | String "239"%char (String "187"%char (String "191"%char r)) => r
  | _ => s
  end.

(** The loop of [canonCode]: keep the alphanumeric characters, upper-cased. *)
Fixpoint keep_alnum_upper (s : string) : string :=
  match s with
  | "" => ""
  | String ch r =>
      if isalnum ch then String (toupper ch) (keep_alnum_upper r)
      else keep_alnum_upper r
  end.

Definition canonCode (s : string) : string :=
  keep_alnum_upper (trim (stripBOM s)).

(** Repeated [std::getline (ss, field, delim)] until it fails.  [field] is
    the text extracted so far for the current call, reversed; [None] means
    that the current call has extracted nothing yet, in which case reaching
    the end of the stream makes it fail and ends the loop. *)
Fixpoint getline_all (delim : ascii) (field : option string) (s : string)
  : list string :=
  match s with
  | "" =>
      match field with
      | None => []
      | Some f => [String.rev f]
      end
  | String ch r =>
      if decide (ch = delim)
      then String.rev (default "" field) :: getline_all delim None r
      else getline_all delim (Some (String ch (default "" field))) r
  end.

Definition splitCSV (line : string) : list string :=
  (λ field, trim (stripBOM field)) <$> getline_all ","%char None line.

(** A normalized course code: upper-case ASCII letters and digits only. *)
Definition code_char (ch : ascii) : bool := isdigit ch || isupper ch.

Fixpoint string_forall (P : ascii → bool) (s : string) : bool :=
  match s with
  | "" => true
  | String ch r => P ch && string_forall P r
  end.

Definition normalized (s : string) : bool := string_forall code_char s.

(** The string with its letters in upper case; two strings differ in
    letter case only when they have the same [upcase]. *)
Fixpoint upcase (s : string) : string :=
  match s with
  | "" => ""
  | String ch r => String (toupper ch) (upcase r)
  end.

(** ** Data model *)

Record Course := mkCourseRecord {
  number : string;
  title : string;
  prereqs : list string
}.

Abbreviation Catalog := (gmap string Course).

(** The files the program can open: [fs name] is the content of the file
    [name], or [None] when [std::ifstream::is_open] is false. *)
Definition FileSystem := string → option string.

(** How a function ends: it returns, it throws [std::out_of_range] (from
    [unordered_map::at]), or the bound put on its loop is exhausted. *)
Inductive outcome (A : Type) :=
  | Returns (a : A)
  | Throws
  | Unfinished.
Arguments Returns {A} a.
Arguments Throws {A}.
Arguments Unfinished {A}.

Definition comment_or_blank (check : string) : bool :=
  match check with
  | "" => true
  | String ch _ => bool_decide (ch = "#"%char)
  end.

(** [std::sort (keys.begin (), keys.end ())] *)
Definition sort_keys (keys : list string) : list string :=
  merge_sort String.le keys.

(** ** The original artifact (CS-300) *)

Module Original.

Definition msg_no_data : string :=
  "No data loaded. Please load the data structure first." +:+ nl.

Definition warn_fields (lineNum : nat) : string :=
  "Warning line " +:+ pretty lineNum +:+ ": not enough fields; skipping." +:+ nl.

Definition warn_empty_code (lineNum : nat) : string :=
  "Warning line " +:+ pretty lineNum
    +:+ ": empty course code after normalization; skipping." +:+ nl.

(** The loader's state inside the [while (std::getline (fin, line))]
    loop: the catalog, [lineNum], and what went to [std::cerr]. *)
Record LoadState := mkLoadState {
  ls_catalog : Catalog;
  ls_lineNum : nat;
  ls_cerr : string
}.

(** One iteration of the loop. *)
Definition load_line (st : LoadState) (line : string) : LoadState :=
  let lineNum := S (ls_lineNum st) in
  let check := trim (stripBOM line) in
  if comment_or_blank check then mkLoadState (ls_catalog st) lineNum (ls_cerr st)
  else
    match splitCSV line with
    | f0 :: f1 :: rest =>
        let c := {| number := canonCode f0;
                    title := f1;
                    prereqs := filter (λ p, p ≠ "") (canonCode <$> rest) |} in
        if decide (number c = "")
        then mkLoadState (ls_catalog st) lineNum
               (ls_cerr st +:+ warn_empty_code lineNum)
        else mkLoadState (<[number c := c]> (ls_catalog st)) lineNum (ls_cerr st)
    | _ =>
        mkLoadState (ls_catalog st) lineNum (ls_cerr st +:+ warn_fields lineNum)
    end.

Definition load_lines (lines : list string) : LoadState :=
  foldl load_line (mkLoadState ∅ 0 "") lines.

(** Returns the [bool] result, the catalog after the call, and the text
    written to [std::cerr]. *)
Definition loadCourses (fs : FileSystem) (filename : string) (catalog : Catalog)
  : bool * Catalog * string :=
  match fs filename with
  | None => (false, catalog, "")
  | Some content =>
      let st := load_lines (getline_all "010"%char None content) in
      (true, ls_catalog st, ls_cerr st)
  end.

Definition msg_open_failed (filename : string) : string :=
  "Error: Could not open " +:+ dquote +:+ filename +:+ dquote +:+ "." +:+ nl.

(** Case 1 of the menu in [main], from the line typed as file name: what
    goes to [std::cout] after the prompt, and the catalog afterwards. *)
Definition choice_load (fs : FileSystem) (line : string) (catalog : Catalog)
  : string * Catalog :=
  let filename := trim line in
  if decide (filename = "") then ("No file name provided." +:+ nl, catalog)
  else
    let r := loadCourses fs filename catalog in
    if r.1.1
    then ("Loaded " +:+ pretty (size r.1.2) +:+ " course(s) from "
            +:+ dquote +:+ filename +:+ dquote +:+ "." +:+ nl, r.1.2)
    else (msg_open_failed filename, r.1.2).

Definition course_row (c : Course) : string :=
  number c +:+ ", " +:+ title c +:+ nl.

Definition show_prereq (catalog : Catalog) (p : string) : string :=
  match catalog !! p with
  | Some pc => number pc +:+ ", " +:+ title pc
  | None => p +:+ " (title unavailable)"
  end.

(** What is printed once the course is found. *)
Definition show_course (catalog : Catalog) (c : Course) : string :=
  course_row c +:+
  match prereqs c with
  | [] => "Prerequisites: None" +:+ nl
  | ps => "Prerequisites: "
            +:+ String.concat "; " (show_prereq catalog <$> ps) +:+ nl
  end.

Definition printSingleCourse (catalog : Catalog) (userInputRaw : string) : string :=
  if decide (catalog = ∅) then msg_no_data
  else
    let key := canonCode userInputRaw in
    match catalog !! key with
    | None => "Course " +:+ userInputRaw +:+ " was not found." +:+ nl
    | Some c => show_course catalog c
    end.

Section HashOrder.
(** The order in which an [unordered_map] is traversed. *)
Variable iter : ∀ V : Type, gmap string V → list (string * V).

Definition printCourseList (catalog : Catalog) : outcome string :=
  if decide (catalog = ∅) then Returns msg_no_data
  else
    let keys := sort_keys ((iter Course catalog).*1) in
    match mapM (λ k, catalog !! k) keys with
    | None => Throws
    | Some cs =>
        Returns ("Here is a sample schedule:" +:+ nl
                   +:+ String.concat "" (course_row <$> cs))
    end.
End HashOrder.

End Original.

(** ** The enhanced artifact (CS-499) *)

Module Enhanced.

Definition msg_no_data : string := "No data loaded." +:+ nl.
Definition msg_not_found : string := "Course not found." +:+ nl.
Definition msg_cycle : string :=
  nl +:+ "Warning: Circular dependency detected." +:+ nl.

(** The constructor [Course (number, title)] and [addPrereq]. *)
Definition newCourse (number title : string) : Course :=
  {| number := canonCode number; title := title; prereqs := [] |}.

Definition addPrereq (c : Course) (p : string) : Course :=
  let norm := canonCode p in
  if decide (norm = "") then c
  else {| number := number c; title := title c; prereqs := prereqs c ++ [norm] |}.

(** One iteration of the loop of [loadCourses] ([lineNum] is counted by
    the program and never read). *)
Definition load_line (catalog : Catalog) (line : string) : Catalog :=
  let check := trim (stripBOM line) in
  if comment_or_blank check then catalog
  else
    match splitCSV line with
    | f0 :: f1 :: rest =>
        let c := foldl addPrereq (newCourse f0 f1) rest in
        <[number c := c]> catalog
    | _ => catalog
    end.

Definition load_lines (lines : list string) : Catalog :=
  foldl load_line ∅ lines.

Definition loadCourses (fs : FileSystem) (filename : string) (catalog : Catalog)
  : bool * Catalog :=
  match fs filename with
  | None => (false, catalog)
  | Some content => (true, load_lines (getline_all "010"%char None content))
  end.

Definition msg_open_failed : string := "Failed to open file." +:+ nl.

(** Choice 1 of the menu in [main], from the line typed as file name: what
    goes to [std::cout] after the prompt, and the catalog afterwards. *)
Definition choice_load (fs : FileSystem) (line : string) (catalog : Catalog)
  : string * Catalog :=
  let filename := trim line in
  let r := loadCourses fs filename catalog in
  if r.1
  then ("Loaded " +:+ pretty (size r.2) +:+ " courses." +:+ nl, r.2)
  else (msg_open_failed, r.2).

Definition course_row (c : Course) : string :=
  number c +:+ ", " +:+ title c +:+ nl.

(** What is printed once the course is found. *)
Definition show_course (c : Course) : string :=
  course_row c +:+
  match prereqs c with
  | [] => "Prerequisites: None" +:+ nl
  | ps => "Prerequisites: " +:+ String.concat ", " ps +:+ nl
  end.

Definition printSingleCourse (catalog : Catalog) (rawInput : string) : string :=
  let key := canonCode rawInput in
  match catalog !! key with
  | None => msg_not_found
  | Some c => show_course c
  end.

(** The graph: successor lists and in-degrees. *)
Abbreviation Adj := (gmap string (list string)).
Abbreviation Indegree := (gmap string Z).

(** [adj[k];] default-constructs the entry when it is missing. *)
Definition touch (k : string) (adj : Adj) : Adj :=
  match adj !! k with
  | Some _ => adj
  | None => <[k := []]> adj
  end.

Definition add_node (g : Adj * Indegree) (kv : string * Course) : Adj * Indegree :=
  (touch kv.1 g.1, <[kv.1 := 0%Z]> g.2).

(** The body of the inner loop of [buildGraph], for prerequisite [p] of
    the course stored under [k]. *)
Definition add_edge (catalog : Catalog) (k : string)
    (g : Adj * Indegree) (p : string) : Adj * Indegree :=
  if decide (is_Some (catalog !! p))
  then (<[p := (g.1 !!! p) ++ [k]]> g.1, <[k := (g.2 !!! k + 1)%Z]> g.2)
  else g.

Definition add_edges (catalog : Catalog)
    (g : Adj * Indegree) (kv : string * Course) : Adj * Indegree :=
  foldl (add_edge catalog kv.1) g (prereqs kv.2).

(** [std::set<std::string>]: traversal in ascending order, and [begin]. *)
Definition set_seq (s : gset string) : list string :=
  merge_sort String.le (elements s).

Definition set_begin (s : gset string) : option string := head (set_seq s).

(** The state of the [while (!zero.empty ())] loop. *)
Record SortState := mkSortState {
  zero : gset string;
  indegree : Indegree;
  order : list string
}.

(** [if (--indegree[v] == 0) zero.insert (v);] *)
Definition relax (zi : gset string * Indegree) (v : string)
  : gset string * Indegree :=
  let d := (zi.2 !!! v - 1)%Z in
  (if decide (d = 0%Z) then {[v]} ∪ zi.1 else zi.1, <[v := d]> zi.2).

(** One iteration of the loop; [None] when [zero] is empty. *)
Definition kahn_step (adj : Adj) (st : SortState) : option SortState :=
  match set_begin (zero st) with
  | None => None
  | Some u =>
      let zi := foldl relax (zero st ∖ {[u]}, indegree st) (adj !!! u) in
      Some (mkSortState zi.1 zi.2 (order st ++ [u]))
  end.

(** The loop, bounded by [fuel] iterations. *)
Fixpoint kahn_loop (fuel : nat) (adj : Adj) (st : SortState)
  : option (list string) :=
  match kahn_step adj st with
  | None => Some (order st)
  | Some st' =>
      match fuel with
      | O => None
      | S fuel => kahn_loop fuel adj st'
      end
  end.

(** A line of the report: position (from 1), code and title. *)
Definition order_row (catalog : Catalog) (i : nat) (k : string) : option string :=
  c ← catalog !! k;
  Some (pretty (i + 1) +:+ ". " +:+ number c +:+ " - " +:+ title c +:+ nl).

Definition order_rows (catalog : Catalog) (order : list string) : option string :=
  String.concat "" <$> mapM (λ ik, order_row catalog ik.1 ik.2) (imap pair order).

Section HashOrder.
(** The order in which an [unordered_map] is traversed. *)
Variable iter : ∀ V : Type, gmap string V → list (string * V).

Definition printCourseList (catalog : Catalog) : outcome string :=
  if decide (catalog = ∅) then Returns msg_no_data
  else
    let keys := sort_keys ((iter Course catalog).*1) in
    match mapM (λ k, catalog !! k) keys with
    | None => Throws
    | Some cs =>
        Returns ("Course List:" +:+ nl +:+ String.concat "" (course_row <$> cs))
    end.

Definition buildGraph (catalog : Catalog) : Adj * Indegree :=
  let nodes := foldl add_node (∅, ∅) (iter Course catalog) in
  foldl (add_edges catalog) nodes (iter Course catalog).

(** The codes whose in-degree is zero after [buildGraph]. *)
Definition initial_zero (indegree : Indegree) : gset string :=
  foldl (λ zero kv, if decide (kv.2 = 0%Z) then {[kv.1]} ∪ zero else zero)
        ∅ (iter Z indegree).

(** The vector [order] when the loop of [printRecommendedOrder] ends;
    the loop is bounded by the number of courses, which it never
    exceeds (lemma [recommendedOrder_returns]). *)
Definition recommendedOrder (catalog : Catalog) : option (list string) :=
  let g := buildGraph catalog in
  kahn_loop (size catalog) g.1 (mkSortState (initial_zero g.2) g.2 []).

Definition printRecommendedOrder (catalog : Catalog) : outcome string :=
  if decide (catalog = ∅) then Returns msg_no_data
  else
    match recommendedOrder catalog with
    | None => Unfinished
    | Some order =>
        match order_rows catalog order with
        | None => Throws
        | Some rows =>
            Returns ("Recommended Course Order:" +:+ nl +:+ rows +:+
                     (if decide (length order ≠ size catalog)
                      then msg_cycle else ""))
        end
    end.
End HashOrder.

End Enhanced.

(** ** The menu loops *)

(** How a session ends: the exit choice was read, the standard input
    reached its end (every later [std::getline] then leaves its string
    empty, which the menu takes for an invalid choice, for ever), or an
    exception left [main]. *)
Inductive ending := Exited | Starved | Aborted.

(** The catalog of [main] and what was written so far. *)
Record Console := mkConsole {
  con_catalog : Catalog;
  con_cout : string;
  con_cerr : string
}.

Definition say (text : string) (con : Console) : Console :=
  mkConsole (con_catalog con) (con_cout con +:+ text) (con_cerr con).

(** The value of a string of decimal digits. *)
Fixpoint decimal_go (acc : N) (s : string) : N :=
  match s with
  | "" => acc
  | String ch r => decimal_go (acc * 10 + (code ch - 48))%N r
  end.

Definition decimal (s : string) : N := decimal_go 0 s.

Definition INT_MAX : N := 2147483647.

(** [std::stoi] on a non-empty string of digits: [None] stands for
    [std::out_of_range]. *)
Definition stoi (s : string) : option N :=
  if (INT_MAX <? decimal s)%N then None else Some (decimal s).

Module OriginalMain.

Definition printMenu : string :=
  "1. Load Data Structure." +:+ nl +:+
  "2. Print Course List." +:+ nl +:+
  "3. Print Course." +:+ nl +:+
  "9. Exit" +:+ nl.

Definition welcome : string := "Welcome to the course planner." +:+ nl.
Definition ask_choice : string := "What would you like to do? ".
Definition ask_file : string :=
  "Enter the name of the data file (e.g., courses.csv): ".
Definition ask_course : string := "What course do you want to know about? ".
Definition goodbye : string := "Thank you for using the course planner!" +:+ nl.
Definition not_valid (text : string) : string :=
  text +:+ " is not a valid option." +:+ nl.

(** What [main] makes of the line read at the menu prompt. *)
Inductive choice :=
  | Invalid (text : string)
  | Overflow
  | Number (n : N).

Definition read_choice (line : string) : choice :=
  let choiceStr := trim line in
  if decide (choiceStr = "") then Invalid "(empty)"
  else if negb (string_forall isdigit choiceStr) then Invalid choiceStr
  else
    match stoi choiceStr with
    | None => Overflow
    | Some n => Number n
    end.

Section Session.
Variable iter : ∀ V : Type, gmap string V → list (string * V).
Variable fs : FileSystem.

(** Case 1, once the file name is read. *)
Definition do_load (line : string) (con : Console) : Console :=
  let filename := trim line in
  if decide (filename = "") then say ("No file name provided." +:+ nl) con
  else
    let r := Original.loadCourses fs filename (con_catalog con) in
    say (if r.1.1
         then "Loaded " +:+ pretty (size r.1.2) +:+ " course(s) from "
                +:+ dquote +:+ filename +:+ dquote +:+ "." +:+ nl
         else Original.msg_open_failed filename)
        (mkConsole r.1.2 (con_cout con) (con_cerr con +:+ r.2)).

(** Case 3, once the query is read. *)
Definition do_detail (line : string) (con : Console) : Console :=
  say (Original.printSingleCourse (con_catalog con) line) con.

(** The [while (running)] loop on the lines that [std::getline] will read
    from the standard input; the [switch] is written as a chain of tests. *)
Fixpoint main_loop (inputs : list string) (con : Console) : ending * Console :=
  let con := say (printMenu +:+ ask_choice) con in
  match inputs with
  | [] => (Starved, con)
  | line :: rest =>
      match read_choice line with
      | Invalid text => main_loop rest (say (not_valid text) con)
      | Overflow => (Aborted, con)
      | Number n =>
          if decide (n = 1%N) then
            let con := say ask_file con in
            match rest with
            | [] => main_loop rest (do_load "" con)
            | arg :: rest' => main_loop rest' (do_load arg con)
            end
          else if decide (n = 2%N) then
            match Original.printCourseList iter (con_catalog con) with
            | Returns out => main_loop rest (say out con)
            | _ => (Aborted, con)
            end
          else if decide (n = 3%N) then
            let con := say ask_course con in
            match rest with
            | [] => main_loop rest (do_detail "" con)
            | arg :: rest' => main_loop rest' (do_detail arg con)
            end
          else if decide (n = 9%N) then (Exited, say goodbye con)
          else main_loop rest (say (not_valid (pretty n)) con)
      end
  end.

Definition main (inputs : list string) : ending * Console :=
  main_loop inputs (mkConsole ∅ welcome "").
End Session.

End OriginalMain.

Module EnhancedMain.

Definition printMenu : string :=
  nl +:+ "Menu Options:" +:+ nl +:+
  "1. Load Data Structure" +:+ nl +:+
  "2. Print Course List" +:+ nl +:+
  "3. Print Course Details" +:+ nl +:+
  "4. Print Recommended Course Order" +:+ nl +:+
  "5. Test Database Connection (SQLite)" +:+ nl +:+
  "9. Exit" +:+ nl.

Definition welcome : string := "Welcome to the Course Planner!" +:+ nl.
Definition ask_choice : string := "Enter choice: ".
Definition ask_file : string := "Enter file name (e.g., courses.csv): ".
Definition ask_course : string := "Enter course number: ".
Definition goodbye : string := "Exiting program. Goodbye!" +:+ nl.
Definition invalid : string := "Invalid option. Try again." +:+ nl.

Section Session.
Variable iter : ∀ V : Type, gmap string V → list (string * V).
Variable fs : FileSystem.
(** Whether [sqlite3_open] returns [SQLITE_OK]. *)
Variable db_ok : bool.

Definition testDatabaseConnection : string :=
  if db_ok then "Connected to SQLite database successfully!" +:+ nl
  else "Failed to connect to SQLite database." +:+ nl.

(** Choice 1, once the file name is read. *)
Definition do_load (line : string) (con : Console) : Console :=
  let r := Enhanced.choice_load fs line (con_catalog con) in
  say r.1 (mkConsole r.2 (con_cout con) (con_cerr con)).

(** Choice 3, once the course number is read. *)
Definition do_detail (line : string) (con : Console) : Console :=
  say (Enhanced.printSingleCourse (con_catalog con) line) con.

(** A report that may throw. *)
Definition report (r : outcome string) (con : Console) : option Console :=
  match r with
  | Returns out => Some (say out con)
  | _ => None
  end.

(** The [while (running)] loop on the lines that [std::getline] will read
    from the standard input. *)
Fixpoint main_loop (inputs : list string) (con : Console) : ending * Console :=
  let con := say (printMenu +:+ ask_choice) con in
  match inputs with
  | [] => (Starved, con)
  | line :: rest =>
      let choice := trim line in
      if decide (choice = "1") then
        let con := say ask_file con in
        match rest with
        | [] => main_loop rest (do_load "" con)
        | arg :: rest' => main_loop rest' (do_load arg con)
        end
      else if decide (choice = "2") then
        match report (Enhanced.printCourseList iter (con_catalog con)) con with
        | Some con' => main_loop rest con'
        | None => (Aborted, con)
        end
      else if decide (choice = "3") then
        let con := say ask_course con in
        match rest with
        | [] => main_loop rest (do_detail "" con)
        | arg :: rest' => main_loop rest' (do_detail arg con)
        end
      else if decide (choice = "4") then
        match report (Enhanced.printRecommendedOrder iter (con_catalog con)) con with
        | Some con' => main_loop rest con'
        | None => (Aborted, con)
        end
      else if decide (choice = "5") then
        main_loop rest (say testDatabaseConnection con)
      else if decide (choice = "9") then (Exited, say goodbye con)
      else main_loop rest (say invalid con)
  end.

Definition main (inputs : list string) : ending * Console :=
  main_loop inputs (mkConsole ∅ welcome "").
End Session.

End EnhancedMain.

(** ** Vocabulary of the specification *)

(** An iteration order is any enumeration of the entries of the map. *)
Definition valid_iter (iter : ∀ V : Type, gmap string V → list (string * V)) : Prop :=
  ∀ (V : Type) (m : gmap string V), iter V m ≡ₚ map_to_list m.

(** The iteration order of [gmap] itself, used to run the model. *)
Definition key_order : ∀ V : Type, gmap string V → list (string * V) :=
  λ V m, map_to_list m.

(** Number of times [x] is listed in [l]. *)
Definition occurrences (x : string) (l : list string) : nat :=
  length (filter (λ y, y = x) l).

(** Number of prerequisite entries that are catalog keys. *)
Definition in_degree (catalog : Catalog) (ps : list string) : nat :=
  length (filter (λ p, is_Some (catalog !! p)) ps).

(** [P] is an in-catalog prerequisite of the catalog course [C]. *)
Definition prereq_edge (catalog : Catalog) (P C : string) : Prop :=
  ∃ c, catalog !! C = Some c ∧ P ∈ prereqs c ∧ is_Some (catalog !! P).

(** Number of in-catalog prerequisite entries not yet in [done]. *)
Definition remaining (catalog : Catalog) (done : list string) (c : Course) : Z :=
  Z.of_nat (length (filter (λ p, is_Some (catalog !! p) ∧ p ∉ done) (prereqs c))).

(** Every course of [l] comes after all its in-catalog prerequisites. *)
Definition topo_ordered (catalog : Catalog) (l : list string) : Prop :=
  ∀ i C P, l !! i = Some C → prereq_edge catalog P C →
    ∃ j, j < i ∧ l !! j = Some P.

(** The code [w] is ready once the codes of [done] are output: it is a
    catalog course not yet output, and every in-catalog prerequisite of it
    is output. *)
Definition ready (catalog : Catalog) (done : list string) (w : string) : Prop :=
  ∃ c, catalog !! w = Some c ∧ (¬ w ∈ done) ∧
       ∀ p, p ∈ prereqs c → is_Some (catalog !! p) → p ∈ done.

(** What holds of the sorter's state each time the loop condition is
    evaluated. *)
Record kahn_inv (catalog : Catalog) (st : Enhanced.SortState) : Prop := {
  inv_nodup : NoDup (Enhanced.order st);
  inv_order_keys : ∀ x, x ∈ Enhanced.order st → is_Some (catalog !! x);
  inv_zero_keys : ∀ x, x ∈ Enhanced.zero st → is_Some (catalog !! x);
  inv_disjoint : ∀ x, x ∈ Enhanced.zero st → x ∉ Enhanced.order st;
  inv_indegree : ∀ k c, catalog !! k = Some c →
    Enhanced.indegree st !! k = Some (remaining catalog (Enhanced.order st) c);
  inv_indegree_none : ∀ k, catalog !! k = None →
    Enhanced.indegree st !! k = None;
  inv_ready : ∀ k c, catalog !! k = Some c →
    (k ∈ Enhanced.zero st ∨ k ∈ Enhanced.order st) ↔
    remaining catalog (Enhanced.order st) c = 0%Z;
  inv_topo : topo_ordered catalog (Enhanced.order st)
}.

(** Every key is the code stored in its course and is in normal form. *)
Definition key_consistent (catalog : Catalog) : Prop :=
  ∀ k c, catalog !! k = Some c →
    number c = k ∧ canonCode k = k ∧ normalized k = true.

(** The states in which the loop of the sorter evaluates its condition. *)
Definition kahn_reachable (iter : ∀ V : Type, gmap string V → list (string * V))
    (catalog : Catalog) (st : Enhanced.SortState) : Prop :=
  let g := Enhanced.buildGraph iter catalog in
  rtc (λ s s', Enhanced.kahn_step g.1 s = Some s')
      (Enhanced.mkSortState (Enhanced.initial_zero iter g.2) g.2 []) st.

(** Another iteration order: the reverse of [key_order]. *)
Definition rev_order : ∀ V : Type, gmap string V → list (string * V) :=
  λ V m, reverse (map_to_list m).

(** *** Sample data *)

Definition sample_file : string :=
  "CSCI100,Intro to CS" +:+ nl +:+
  "CSCI101,Intro to Programming,CSCI100" +:+ nl +:+
  "CSCI200,Data Structures,CSCI101,MATH201" +:+ nl.

Definition sample_fs : FileSystem :=
  λ name, if decide (name = "courses.csv") then Some sample_file else None.

Definition sample_catalog : Catalog :=
  (Enhanced.loadCourses sample_fs "courses.csv" ∅).2.

(** Two courses that require each other. *)
Definition cycle_catalog : Catalog :=
  {[ "A" := {| number := "A"; title := "First"; prereqs := ["B"] |};
     "B" := {| number := "B"; title := "Second"; prereqs := ["A"] |} ]}.

(** A course and its successor. *)
Definition chain_catalog : Catalog :=
  {[ "A" := {| number := "A"; title := "First"; prereqs := [] |};
     "B" := {| number := "B"; title := "Second"; prereqs := ["A"] |} ]}.

(** A file whose only record has an empty course code. *)
Definition empty_code_fs : FileSystem := λ _, Some (",Intro" +:+ nl).

(** The sorter's state before and after its first iteration on the
    sample catalog. *)
Definition sample_state : Enhanced.SortState :=
  let g := Enhanced.buildGraph key_order sample_catalog in
  Enhanced.mkSortState (Enhanced.initial_zero key_order g.2) g.2 [].

Definition sample_next : Enhanced.SortState :=
  Enhanced.mkSortState
    {[ "CSCI101" ]}
    {[ "CSCI100" := 0%Z; "CSCI101" := 0%Z; "CSCI200" := 1%Z ]}
    ["CSCI100"].

(** Two courses that require each other, next to a course without
    prerequisites and its successor. *)
Definition partial_catalog : Catalog :=
  {[ "A" := {| number := "A"; title := "First"; prereqs := ["B"] |};
     "B" := {| number := "B"; title := "Second"; prereqs := ["A"] |};
     "C" := {| number := "C"; title := "Third"; prereqs := [] |};
     "D" := {| number := "D"; title := "Fourth"; prereqs := ["C"] |} ]}.

(** Two courses without prerequisites, B and C; the successor A of B sorts
    before C. *)
Definition tie_catalog : Catalog :=
  {[ "A" := {| number := "A"; title := "First"; prereqs := ["B"] |};
     "B" := {| number := "B"; title := "Second"; prereqs := [] |};
     "C" := {| number := "C"; title := "Third"; prereqs := [] |} ]}.

(** The sorter's state on [tie_catalog] after its first iteration, where
    A and C are both ready, and after its second. *)
Definition tie_state : Enhanced.SortState :=
  Enhanced.mkSortState
    {[ "A"; "C" ]}
    {[ "A" := 0%Z; "B" := 0%Z; "C" := 0%Z ]}
    ["B"].

Definition tie_next : Enhanced.SortState :=
  Enhanced.mkSortState
    {[ "C" ]}
    {[ "A" := 0%Z; "B" := 0%Z; "C" := 0%Z ]}
    ["B"; "A"].

(** *** Vocabulary of the further properties *)

(** The first character is a space. *)
Definition edge_space (s : string) : bool :=
  match s with
  | "" => false
  | String ch _ => isspace ch
  end.

(** Neither the first nor the last character is a space. *)
Definition trimmed (s : string) : bool :=
  negb (edge_space s) && negb (edge_space (String.rev s)).

(** The string ends with the character [d]. *)
Definition ends_with (d : ascii) (s : string) : bool :=
  match String.rev s with
  | "" => false
  | String ch _ => bool_decide (ch = d)
  end.

Fixpoint count_char (d : ascii) (s : string) : nat :=
  match s with
  | "" => 0
  | String ch r => (if decide (ch = d) then 1 else 0) + count_char d r
  end.

(** The character [d] does not occur in the string. *)
Definition free_of (d : ascii) (s : string) : bool :=
  string_forall (λ ch, negb (bool_decide (ch = d))) s.

(** The course that a line of the file defines when it is a record
    (neither blank nor a comment, with two fields at least), as the
    enhanced loader builds it. *)
Definition record_of (line : string) : option Course :=
  if comment_or_blank (trim (stripBOM line)) then None
  else
    match splitCSV line with
    | f0 :: f1 :: rest =>
        Some (foldl Enhanced.addPrereq (Enhanced.newCourse f0 f1) rest)
    | _ => None
    end.

(** The codes of the records of a file, in the order of the lines. *)
Definition record_codes (lines : list string) : list string :=
  omap (λ line, number <$> record_of line) lines.

(** What the loader stores is in normal form: prerequisites are non-empty
    normalized codes, the title is trimmed and holds no comma. *)
Definition well_formed (c : Course) : Prop :=
  Forall (λ p, p ≠ "" ∧ normalized p = true ∧ canonCode p = p) (prereqs c) ∧
  trimmed (title c) = true ∧ free_of ","%char (title c) = true.

(** ** Lemmas on the string helpers *)

Section StringHelpers.

Lemma append_cons ch s1 s2 : String ch s1 +:+ s2 = String ch (s1 +:+ s2).
Proof. done. Qed.

Lemma append_nil_l s : "" +:+ s = s.
Proof. done. Qed.

Lemma append_assoc s1 s2 s3 : (s1 +:+ s2) +:+ s3 = s1 +:+ (s2 +:+ s3).
Proof.
  induction s1 as [|ch s1 IH]; [done|].
  by rewrite !append_cons, IH.
Qed.

Lemma rev_app_spec s acc :
  String.rev_app s acc = String.rev s +:+ acc.
Proof.
  unfold String.rev. revert acc.
  induction s as [|ch s IH]; intros acc; simpl; [done|].
  rewrite (IH (String ch "")), IH.
  by rewrite append_assoc.
Qed.

Lemma rev_cons ch s : String.rev (String ch s) = String.rev s +:+ String ch "".
Proof. unfold String.rev at 1. simpl. apply rev_app_spec. Qed.

Lemma rev_snoc s ch : String.rev (s +:+ String ch "") = String ch (String.rev s).
Proof.
  induction s as [|c s IH]; [done|].
  by rewrite append_cons, !rev_cons, IH, append_cons.
Qed.

Lemma rev_involutive s : String.rev (String.rev s) = s.
Proof.
  induction s as [|ch s IH]; [done|].
  by rewrite rev_cons, rev_snoc, IH.
Qed.

Lemma string_forall_app P s1 s2 :
  string_forall P (s1 +:+ s2) = string_forall P s1 && string_forall P s2.
Proof.
  induction s1 as [|ch s1 IH]; [done|].
  rewrite append_cons. simpl. by rewrite IH, andb_assoc.
Qed.

Lemma string_forall_rev P s : string_forall P (String.rev s) = string_forall P s.
Proof.
  induction s as [|ch s IH]; [done|].
  rewrite rev_cons, string_forall_app, IH. simpl.
  rewrite andb_true_r. apply andb_comm.
Qed.

Lemma ltrim_no_space s :
  string_forall (λ ch, negb (isspace ch)) s = true → ltrim s = s.
Proof.
  destruct s as [|ch s]; simpl; [done|].
  intros [Hch _]%andb_true_iff. by destruct (isspace ch).
Qed.

Lemma trim_no_space s :
  string_forall (λ ch, negb (isspace ch)) s = true → trim s = s.
Proof.
  intros Hs. unfold trim, rtrim.
  rewrite (ltrim_no_space s Hs).
  rewrite ltrim_no_space by by rewrite string_forall_rev.
  apply rev_involutive.
Qed.

Lemma string_forall_impl (P Q : ascii → bool) s :
  (∀ ch, P ch = true → Q ch = true) →
  string_forall P s = true → string_forall Q s = true.
Proof.
  intros HPQ. induction s as [|ch s IH]; simpl; [done|].
  intros [??]%andb_true_iff. apply andb_true_iff; auto.
Qed.

(** Case analysis on the 256 characters. *)
Ltac by_cases ch :=
  destruct ch as [[] [] [] [] [] [] [] []]; vm_compute; try done.

Lemma toupper_code_char ch : isalnum ch = true → code_char (toupper ch) = true.
Proof. by_cases ch. Qed.

Lemma code_char_not_space ch : code_char ch = true → negb (isspace ch) = true.
Proof. by_cases ch. Qed.

Lemma code_char_isalnum ch : code_char ch = true → isalnum ch = true.
Proof. by_cases ch. Qed.

Lemma code_char_toupper ch : code_char ch = true → toupper ch = ch.
Proof. by_cases ch. Qed.

Lemma code_char_not_BOM ch : code_char ch = true → ch ≠ "239"%char.
Proof. by_cases ch. Qed.

Lemma keep_alnum_upper_normalized s : normalized (keep_alnum_upper s) = true.
Proof.
  induction s as [|ch s IH]; simpl; [done|].
  destruct (isalnum ch) eqn:Hch; [|done].
  unfold normalized in *. simpl. by rewrite toupper_code_char, IH.
Qed.

Lemma canonCode_normalized s : normalized (canonCode s) = true.
Proof. apply keep_alnum_upper_normalized. Qed.

Lemma keep_alnum_upper_fixed s :
  normalized s = true → keep_alnum_upper s = s.
Proof.
  unfold normalized. induction s as [|ch s IH]; simpl; [done|].
  intros [Hch Hs]%andb_true_iff.
  by rewrite (code_char_isalnum _ Hch), (code_char_toupper _ Hch), IH.
Qed.

Lemma stripBOM_normalized s : normalized s = true → stripBOM s = s.
Proof.
  destruct s as [|ch s]; [done|]. unfold normalized. simpl.
  intros [Hch _]%andb_true_iff. apply code_char_not_BOM in Hch.
  destruct ch as [[] [] [] [] [] [] [] []]; try done.
Qed.

Lemma canonCode_fixed s : normalized s = true → canonCode s = s.
Proof.
  intros Hs. unfold canonCode.
  rewrite (stripBOM_normalized s Hs), trim_no_space.
  - by apply keep_alnum_upper_fixed.
  - revert Hs. apply string_forall_impl, code_char_not_space.
Qed.

Lemma isspace_not_alnum ch : isspace ch = true → isalnum ch = false.
Proof. by_cases ch. Qed.

Lemma isalnum_toupper ch : isalnum (toupper ch) = isalnum ch.
Proof. by_cases ch. Qed.

Lemma toupper_toupper ch : toupper (toupper ch) = toupper ch.
Proof. by_cases ch. Qed.

Lemma append_nil_r s : s +:+ "" = s.
Proof. induction s as [|ch s IH]; [done|]. by rewrite append_cons, IH. Qed.

Lemma keep_alnum_upper_app s1 s2 :
  keep_alnum_upper (s1 +:+ s2) = keep_alnum_upper s1 +:+ keep_alnum_upper s2.
Proof.
  induction s1 as [|ch s1 IH]; [done|].
  rewrite append_cons. simpl. destruct (isalnum ch); [|done].
  by rewrite append_cons, IH.
Qed.

Lemma keep_alnum_upper_rev s :
  keep_alnum_upper (String.rev s) = String.rev (keep_alnum_upper s).
Proof.
  induction s as [|ch s IH]; [done|].
  rewrite rev_cons, keep_alnum_upper_app, IH. simpl.
  destruct (isalnum ch); [by rewrite rev_cons|apply append_nil_r].
Qed.

Lemma keep_alnum_upper_ltrim s :
  keep_alnum_upper (ltrim s) = keep_alnum_upper s.
Proof.
  induction s as [|ch s IH]; [done|]. simpl.
  destruct (isspace ch) eqn:Hch; [|done].
  by rewrite (isspace_not_alnum ch Hch).
Qed.

Lemma keep_alnum_upper_trim s :
  keep_alnum_upper (trim s) = keep_alnum_upper s.
Proof.
  unfold trim, rtrim.
  rewrite keep_alnum_upper_rev, keep_alnum_upper_ltrim, keep_alnum_upper_rev.
  by rewrite rev_involutive, keep_alnum_upper_ltrim.
Qed.

Lemma keep_alnum_upper_stripBOM s :
  keep_alnum_upper (stripBOM s) = keep_alnum_upper s.
Proof.
  destruct s as [|c1 s]; [done|].
  destruct c1 as [[] [] [] [] [] [] [] []]; try done.
  destruct s as [|c2 s]; [done|].
  destruct c2 as [[] [] [] [] [] [] [] []]; try done.
  destruct s as [|c3 s]; [done|].
  destruct c3 as [[] [] [] [] [] [] [] []]; done.
Qed.

(** The BOM and the surrounding spaces hold no alphanumeric character, so
    [canonCode] is the filter alone. *)
Lemma canonCode_filter s : canonCode s = keep_alnum_upper s.
Proof.
  unfold canonCode. by rewrite keep_alnum_upper_trim, keep_alnum_upper_stripBOM.
Qed.

Lemma keep_alnum_upper_upcase s :
  keep_alnum_upper (upcase s) = keep_alnum_upper s.
Proof.
  induction s as [|ch s IH]; [done|]. simpl.
  by rewrite isalnum_toupper, toupper_toupper, IH.
Qed.

End StringHelpers.

(** C8. The normalizer is idempotent; it is insensitive to letter case
    (strings with the same upper-casing have the same code) and to white
    space (a space character added anywhere does not change the code); the
    three spellings [" csci 101 "], ["CSCI101"] and ["csci101"] all
    normalize to ["CSCI101"]. *)
Theorem canonCode_idempotent_insensitive :
  (∀ s, canonCode (canonCode s) = canonCode s) ∧
  (∀ s1 s2, upcase s1 = upcase s2 → canonCode s1 = canonCode s2) ∧
  (∀ s1 ch s2, isspace ch = true →
     canonCode (s1 +:+ String ch s2) = canonCode (s1 +:+ s2)) ∧
  canonCode " csci 101 " = "CSCI101" ∧
  canonCode "CSCI101" = "CSCI101" ∧
  canonCode "csci101" = "CSCI101".
Proof.
  split_and!; [| | |by vm_compute..].
  - intros s. apply canonCode_fixed, canonCode_normalized.
  - intros s1 s2 Hcase. rewrite !canonCode_filter.
    by rewrite <- (keep_alnum_upper_upcase s1), Hcase, keep_alnum_upper_upcase.
  - intros s1 ch s2 Hch. rewrite !canonCode_filter, !keep_alnum_upper_app.
    simpl. by rewrite (isspace_not_alnum ch Hch).
Qed.

(** ** The dependency graph *)

Section BuildGraph.

Variable catalog : Catalog.

Lemma occurrences_app x (l1 l2 : list string) :
  occurrences x (l1 ++ l2) = occurrences x l1 + occurrences x l2.
Proof. unfold occurrences. by rewrite filter_app, length_app. Qed.

Lemma occurrences_cons x y (l : list string) :
  occurrences x (y :: l) = (if decide (y = x) then 1 else 0) + occurrences x l.
Proof. unfold occurrences. rewrite filter_cons. by case_decide. Qed.

Lemma occurrences_pos x (l : list string) : 0 < occurrences x l ↔ x ∈ l.
Proof.
  induction l as [|y l IH]; [rewrite elem_of_nil; cbn; lia|].
  rewrite occurrences_cons, elem_of_cons. case_decide as Hxy.
  - split; [intros _; by left|lia].
  - rewrite <- IH. split; [intros; right; lia|intros [?|?]; [congruence|lia]].
Qed.

Lemma occurrences_perm x (l1 l2 : list string) :
  l1 ≡ₚ l2 → occurrences x l1 = occurrences x l2.
Proof. intros Hl. unfold occurrences. by rewrite Hl. Qed.

Lemma in_degree_cons p (ps : list string) :
  in_degree catalog (p :: ps) =
  (if decide (is_Some (catalog !! p)) then 1 else 0) + in_degree catalog ps.
Proof. unfold in_degree. rewrite filter_cons. by case_decide. Qed.

(** *** First loop: one entry per course *)

Lemma lookup_touch k (adj : Enhanced.Adj) k' :
  Enhanced.touch k adj !! k' =
  match adj !! k' with
  | Some succs => Some succs
  | None => if decide (k' = k) then Some [] else None
  end.
Proof.
  unfold Enhanced.touch. destruct (adj !! k) as [s|] eqn:Hk.
  - destruct (adj !! k') eqn:Hk'; [done|].
    rewrite decide_False; [done|congruence].
  - destruct (decide (k' = k)) as [->|Hne].
    + by rewrite lookup_insert_eq, Hk.
    + rewrite lookup_insert_ne by done. by destruct (adj !! k').
Qed.

Lemma add_nodes_adj (l : list (string * Course)) g k :
  (foldl Enhanced.add_node g l).1 !! k =
  match g.1 !! k with
  | Some succs => Some succs
  | None => if decide (k ∈ l.*1) then Some [] else None
  end.
Proof.
  revert g. induction l as [|[k' c] l IH]; intros g.
  { simpl. by destruct (g.1 !! k). }
  rewrite fmap_cons. cbn [foldl]. rewrite IH.
  unfold Enhanced.add_node at 1. cbn [fst snd]. rewrite lookup_touch.
  destruct (g.1 !! k); [done|].
  destruct (decide (k = k')) as [->|Hne].
  - by rewrite (decide_True (P := k' ∈ k' :: l.*1)) by apply list_elem_of_here.
  - apply decide_ext. rewrite elem_of_cons. intuition congruence.
Qed.

Lemma add_nodes_indegree (l : list (string * Course)) g k :
  (foldl Enhanced.add_node g l).2 !! k =
  if decide (k ∈ l.*1) then Some 0%Z else g.2 !! k.
Proof.
  revert g. induction l as [|[k' c] l IH]; intros g; [done|].
  rewrite fmap_cons. cbn [foldl]. rewrite IH.
  unfold Enhanced.add_node at 1. cbn [fst snd].
  destruct (decide (k = k')) as [->|Hne].
  - rewrite lookup_insert_eq.
    rewrite (decide_True (P := k' ∈ k' :: l.*1)) by apply list_elem_of_here.
    by case_decide.
  - rewrite lookup_insert_ne by done.
    apply decide_ext. rewrite elem_of_cons. intuition congruence.
Qed.

(** *** Second loop: one edge per in-catalog prerequisite occurrence *)

Lemma add_edge_list_adj k (ps : list string) g p :
  (foldl (Enhanced.add_edge catalog k) g ps).1 !! p =
  if decide (is_Some (catalog !! p) ∧ p ∈ ps)
  then Some ((g.1 !!! p) ++ replicate (occurrences p ps) k)
  else g.1 !! p.
Proof.
  revert g. induction ps as [|q ps IH]; intros g.
  { simpl. rewrite decide_False; [done|]. rewrite elem_of_nil. tauto. }
  cbn [foldl]. rewrite IH. unfold Enhanced.add_edge.
  rewrite occurrences_cons.
  destruct (decide (is_Some (catalog !! q))) as [Hq|Hq]; simpl.
  - destruct (decide (q = p)) as [->|Hne].
    + rewrite lookup_total_insert_eq, lookup_insert_eq.
      rewrite (decide_True (P := _ ∧ p ∈ p :: ps))
        by (split; [done|apply list_elem_of_here]).
      case_decide as Hp.
      * by rewrite <- app_assoc.
      * assert (occurrences p ps = 0) as ->; [|done].
        assert (¬ 0 < occurrences p ps); [|lia].
        rewrite occurrences_pos. tauto.
    + rewrite lookup_total_insert_ne, lookup_insert_ne by done.
      apply decide_ext. rewrite elem_of_cons. intuition congruence.
  - destruct (decide (q = p)) as [->|Hne].
    + rewrite !decide_False; [done|tauto|tauto].
    + apply decide_ext. rewrite elem_of_cons. intuition congruence.
Qed.

Lemma add_edge_list_indegree k (ps : list string) g k' :
  (foldl (Enhanced.add_edge catalog k) g ps).2 !! k' =
  if decide (k' = k ∧ 0 < in_degree catalog ps)
  then Some (g.2 !!! k + Z.of_nat (in_degree catalog ps))%Z
  else g.2 !! k'.
Proof.
  revert g. induction ps as [|q ps IH]; intros g.
  { simpl. rewrite decide_False; [done|]. cbn. lia. }
  cbn [foldl]. rewrite IH. unfold Enhanced.add_edge.
  rewrite in_degree_cons.
  destruct (decide (is_Some (catalog !! q))) as [Hq|Hq]; simpl.
  - rewrite lookup_total_insert_eq.
    destruct (decide (k' = k)) as [->|Hne].
    + rewrite lookup_insert_eq.
      rewrite (decide_True (P := _ ∧ 0 < 1 + _)) by (split; [done|lia]).
      case_decide as H; f_equal; [lia|].
      destruct (decide (0 < in_degree catalog ps)); [|lia].
      exfalso. apply H. by split.
    + rewrite lookup_insert_ne by done.
      rewrite !decide_False; [done|tauto|tauto].
  - done.
Qed.

Lemma add_edge_list_adj_total k (ps : list string) g p :
  (foldl (Enhanced.add_edge catalog k) g ps).1 !!! p =
  (g.1 !!! p) ++
  replicate (if decide (is_Some (catalog !! p)) then occurrences p ps else 0) k.
Proof.
  rewrite !lookup_total_alt, add_edge_list_adj.
  case_decide as Hp.
  - destruct Hp as [Hp _]. rewrite decide_True by done.
    by rewrite lookup_total_alt.
  - case_decide as Hp'; [|by rewrite app_nil_r].
    assert (occurrences p ps = 0) as ->; [|by rewrite app_nil_r].
    assert (¬ 0 < occurrences p ps); [|lia].
    rewrite occurrences_pos. tauto.
Qed.

Lemma add_edges_indegree_other (l : list (string * Course)) g k :
  k ∉ l.*1 → (foldl (Enhanced.add_edges catalog) g l).2 !! k = g.2 !! k.
Proof.
  revert g. induction l as [|[k0 c0] l IH]; intros g Hk; [done|].
  rewrite fmap_cons, not_elem_of_cons in Hk. destruct Hk as [Hne Hk].
  cbn [foldl]. rewrite IH by done.
  unfold Enhanced.add_edges. rewrite add_edge_list_indegree.
  rewrite decide_False; [done|]. simpl. tauto.
Qed.

Lemma add_edges_indegree (l : list (string * Course)) g k c :
  NoDup l.*1 → (k, c) ∈ l →
  (foldl (Enhanced.add_edges catalog) g l).2 !! k =
  if decide (0 < in_degree catalog (prereqs c))
  then Some (g.2 !!! k + Z.of_nat (in_degree catalog (prereqs c)))%Z
  else g.2 !! k.
Proof.
  revert g. induction l as [|[k0 c0] l IH]; intros g Hnd Hin.
  { by apply elem_of_nil in Hin. }
  rewrite fmap_cons, NoDup_cons in Hnd. destruct Hnd as [Hk0 Hnd].
  cbn [foldl]. apply elem_of_cons in Hin as [[= -> ->]|Hin].
  - rewrite add_edges_indegree_other by done.
    unfold Enhanced.add_edges. rewrite add_edge_list_indegree. simpl.
    apply decide_ext. tauto.
  - assert (k ≠ k0) as Hne.
    { intros ->. apply Hk0. apply list_elem_of_fmap. by exists (k0, c). }
    rewrite IH by done.
    assert ((Enhanced.add_edges catalog g (k0, c0)).2 !! k = g.2 !! k) as Heq.
    { unfold Enhanced.add_edges. rewrite add_edge_list_indegree.
      rewrite decide_False; [done|]. simpl. tauto. }
    by rewrite !lookup_total_alt, Heq.
Qed.

Lemma add_edges_adj_dom (l : list (string * Course)) g p :
  is_Some ((foldl (Enhanced.add_edges catalog) g l).1 !! p) ↔
  is_Some (g.1 !! p) ∨
  (is_Some (catalog !! p) ∧ ∃ k c, (k, c) ∈ l ∧ p ∈ prereqs c).
Proof.
  revert g. induction l as [|[k0 c0] l IH]; intros g.
  { simpl. setoid_rewrite elem_of_nil. split; [by left|]. by intros [?|(_&?&?&[]&_)]. }
  cbn [foldl]. rewrite IH.
  unfold Enhanced.add_edges. rewrite add_edge_list_adj. simpl.
  setoid_rewrite elem_of_cons. case_decide as Hp.
  - split; [|intros _; left; by eexists].
    intros _. right. split; [tauto|]. exists k0, c0. tauto.
  - split.
    + intros [?|(?&k&c&?&?)]; [by left|right].
      split; [done|]. exists k, c. tauto.
    + intros [?|(?&k&c&[[= -> ->]|?]&?)]; [by left|tauto|right].
      split; [done|]. by exists k, c.
Qed.

Lemma add_edges_adj_other (l : list (string * Course)) g p C :
  C ∉ l.*1 →
  occurrences C ((foldl (Enhanced.add_edges catalog) g l).1 !!! p) =
  occurrences C (g.1 !!! p).
Proof.
  revert g. induction l as [|[k0 c0] l IH]; intros g HC; [done|].
  rewrite fmap_cons, not_elem_of_cons in HC. destruct HC as [Hne HC].
  cbn [foldl]. rewrite IH by done.
  unfold Enhanced.add_edges. rewrite add_edge_list_adj_total, occurrences_app.
  simpl. assert (occurrences C (replicate
    (if decide (is_Some (catalog !! p)) then occurrences p (prereqs c0) else 0)
    k0) = 0) as ->; [|lia].
  assert (¬ 0 < occurrences C (replicate
    (if decide (is_Some (catalog !! p)) then occurrences p (prereqs c0) else 0)
    k0)); [|lia].
  rewrite occurrences_pos. by intros [-> _]%elem_of_replicate.
Qed.

Lemma occurrences_replicate x n : occurrences x (replicate n x) = n.
Proof.
  induction n as [|n IH]; [done|].
  cbn [replicate]. rewrite occurrences_cons, IH. by rewrite decide_True.
Qed.

Lemma add_edges_adj (l : list (string * Course)) g p C c :
  NoDup l.*1 → (C, c) ∈ l → is_Some (catalog !! p) →
  occurrences C ((foldl (Enhanced.add_edges catalog) g l).1 !!! p) =
  occurrences C (g.1 !!! p) + occurrences p (prereqs c).
Proof.
  intros Hnd Hin Hp. revert g Hnd Hin.
  induction l as [|[k0 c0] l IH]; intros g Hnd Hin.
  { by apply elem_of_nil in Hin. }
  rewrite fmap_cons, NoDup_cons in Hnd. destruct Hnd as [Hk0 Hnd].
  cbn [foldl]. apply elem_of_cons in Hin as [[= -> ->]|Hin].
  - rewrite add_edges_adj_other by done.
    unfold Enhanced.add_edges. rewrite add_edge_list_adj_total, occurrences_app.
    simpl. by rewrite decide_True, occurrences_replicate by done.
  - assert (C ≠ k0) as Hne.
    { intros ->. apply Hk0. apply list_elem_of_fmap. by exists (k0, c). }
    rewrite IH by done. f_equal.
    apply (add_edges_adj_other [(k0, c0)]). simpl.
    by intros ->%list_elem_of_singleton.
Qed.

End BuildGraph.

Section GraphSpec.

Variable iter : ∀ V : Type, gmap string V → list (string * V).
Hypothesis iter_ok : valid_iter iter.

Lemma iter_NoDup {V} (m : gmap string V) : NoDup (iter V m).*1.
Proof. rewrite (iter_ok V m). apply NoDup_fst_map_to_list. Qed.

Lemma elem_of_iter {V} (m : gmap string V) k v :
  (k, v) ∈ iter V m ↔ m !! k = Some v.
Proof. rewrite (iter_ok V m). apply elem_of_map_to_list. Qed.

Lemma elem_of_iter_keys {V} (m : gmap string V) k :
  k ∈ (iter V m).*1 ↔ is_Some (m !! k).
Proof.
  rewrite list_elem_of_fmap. split.
  - intros [[k' v] [-> Hin]]. apply elem_of_iter in Hin. by exists v.
  - intros [v Hv]. exists (k, v). split; [done|]. by apply elem_of_iter.
Qed.

Variable catalog : Catalog.

Lemma nodes_adj k :
  (foldl Enhanced.add_node (∅, ∅) (iter Course catalog)).1 !! k =
  if decide (is_Some (catalog !! k)) then Some [] else None.
Proof.
  rewrite add_nodes_adj. simpl. rewrite lookup_empty.
  apply decide_ext, elem_of_iter_keys.
Qed.

Lemma nodes_indegree k :
  (foldl Enhanced.add_node (∅, ∅) (iter Course catalog)).2 !! k =
  if decide (is_Some (catalog !! k)) then Some 0%Z else None.
Proof.
  rewrite add_nodes_indegree. simpl. rewrite lookup_empty.
  apply decide_ext, elem_of_iter_keys.
Qed.

Lemma buildGraph_indegree C c :
  catalog !! C = Some c →
  (Enhanced.buildGraph iter catalog).2 !! C =
  Some (Z.of_nat (in_degree catalog (prereqs c))).
Proof.
  intros HC. unfold Enhanced.buildGraph.
  rewrite (add_edges_indegree catalog _ _ C c);
    [|apply iter_NoDup|by apply elem_of_iter].
  rewrite lookup_total_alt, nodes_indegree.
  rewrite (decide_True (P := is_Some (catalog !! C))) by by eexists.
  case_decide; simpl; f_equal; lia.
Qed.

Lemma buildGraph_indegree_None C :
  catalog !! C = None → (Enhanced.buildGraph iter catalog).2 !! C = None.
Proof.
  intros HC. unfold Enhanced.buildGraph.
  rewrite add_edges_indegree_other.
  - rewrite nodes_indegree, decide_False; [done|].
    rewrite HC. by intros [? ?].
  - rewrite elem_of_iter_keys, HC. by intros [? ?].
Qed.

Lemma buildGraph_adj_dom P :
  is_Some ((Enhanced.buildGraph iter catalog).1 !! P) ↔ is_Some (catalog !! P).
Proof.
  unfold Enhanced.buildGraph. rewrite add_edges_adj_dom, nodes_adj.
  case_decide as HP; split; try tauto.
  - intros _. left. by eexists.
  - by intros [[? [=]]|[? _]].
Qed.

Lemma buildGraph_adj_occurrences P C c :
  catalog !! C = Some c → is_Some (catalog !! P) →
  occurrences C ((Enhanced.buildGraph iter catalog).1 !!! P) =
  occurrences P (prereqs c).
Proof.
  intros HC HP. unfold Enhanced.buildGraph.
  rewrite (add_edges_adj catalog _ _ P C c);
    [|apply iter_NoDup|by apply elem_of_iter|done].
  by rewrite lookup_total_alt, nodes_adj, decide_True.
Qed.

Lemma buildGraph_adj_elem P C :
  C ∈ (Enhanced.buildGraph iter catalog).1 !!! P →
  is_Some (catalog !! P) ∧ is_Some (catalog !! C).
Proof.
  intros Hin. split.
  - apply buildGraph_adj_dom. rewrite lookup_total_alt in Hin.
    destruct (_ !! P); [by eexists|]. by apply elem_of_nil in Hin.
  - destruct (catalog !! C) as [c|] eqn:HC; [by eexists|].
    apply occurrences_pos in Hin. revert Hin.
    unfold Enhanced.buildGraph. rewrite add_edges_adj_other.
    + rewrite lookup_total_alt, nodes_adj. case_decide; cbn; lia.
    + rewrite elem_of_iter_keys, HC. by intros [? ?].
Qed.

(** The in-degrees fit the [int] they are stored in as soon as the
    prerequisite lists are shorter than [INT_MAX]. *)
Lemma buildGraph_indegree_bounds C d :
  (Enhanced.buildGraph iter catalog).2 !! C = Some d →
  ∃ c, catalog !! C = Some c ∧ (0 ≤ d ≤ Z.of_nat (length (prereqs c)))%Z.
Proof.
  destruct (catalog !! C) as [c|] eqn:HC.
  - rewrite (buildGraph_indegree C c HC). intros [= <-].
    exists c. split; [done|]. unfold in_degree.
    pose proof (length_filter (λ p, is_Some (catalog !! p)) (prereqs c)). lia.
  - by rewrite buildGraph_indegree_None.
Qed.

End GraphSpec.

(** C4. The graph builder gives every catalog key, and nothing else, an
    entry in the adjacency map and in the in-degree map; the successor list
    of a key [P] holds a course [C] once per occurrence of [P] in the
    prerequisite list of [C] (duplicates included) and holds nothing but
    catalog keys; the in-degree of [C] is the number of its prerequisite
    entries that are catalog keys, so that the other entries contribute
    neither an edge nor an in-degree. *)
Theorem buildGraph_spec iter (catalog : Catalog) :
  valid_iter iter →
  let g := Enhanced.buildGraph iter catalog in
  dom g.1 = dom catalog ∧
  dom g.2 = dom catalog ∧
  (∀ P C c, catalog !! C = Some c → is_Some (catalog !! P) →
     occurrences C (g.1 !!! P) = occurrences P (prereqs c)) ∧
  (∀ P C, C ∈ g.1 !!! P → is_Some (catalog !! P) ∧ is_Some (catalog !! C)) ∧
  (∀ C c, catalog !! C = Some c →
     g.2 !! C = Some (Z.of_nat (in_degree catalog (prereqs c)))) ∧
  (∀ P, catalog !! P = None → g.1 !! P = None ∧ g.2 !! P = None).
Proof.
  intros Hiter g. subst g. split_and!.
  - apply set_eq. intros k. rewrite !elem_of_dom.
    by apply buildGraph_adj_dom.
  - apply set_eq. intros k. rewrite !elem_of_dom.
    destruct (catalog !! k) as [c|] eqn:Hk.
    + rewrite (buildGraph_indegree iter Hiter catalog k c Hk).
      split; by eexists.
    + rewrite (buildGraph_indegree_None iter Hiter catalog k Hk).
      done.
  - intros P C c. by apply buildGraph_adj_occurrences.
  - intros P C. by apply buildGraph_adj_elem.
  - intros C c. by apply buildGraph_indegree.
  - intros P HP. split; [|by apply buildGraph_indegree_None].
    apply eq_None_not_Some. rewrite (buildGraph_adj_dom iter Hiter catalog P), HP.
    by intros [? ?].
Qed.

(** ** The topological sort *)

Section Relax.

Implicit Types (z : gset string) (ind : Enhanced.Indegree) (l : list string).

Lemma relax_list_indegree l z ind v :
  (foldl Enhanced.relax (z, ind) l).2 !! v =
  if decide (v ∈ l) then Some (ind !!! v - Z.of_nat (occurrences v l))%Z
  else ind !! v.
Proof.
  revert z ind. induction l as [|w l IH]; intros z ind.
  { done. }
  cbn [foldl]. unfold Enhanced.relax at 2. cbn [fst snd]. rewrite IH.
  rewrite occurrences_cons. destruct (decide (w = v)) as [->|Hne].
  - rewrite lookup_total_insert_eq, lookup_insert_eq.
    rewrite (decide_True (P := v ∈ v :: l)) by apply list_elem_of_here.
    case_decide as Hv; f_equal; [lia|].
    assert (occurrences v l = 0); [|lia].
    assert (¬ 0 < occurrences v l); [|lia].
    by rewrite occurrences_pos.
  - rewrite lookup_total_insert_ne, lookup_insert_ne by done.
    apply decide_ext. rewrite elem_of_cons. intuition congruence.
Qed.

Lemma relax_list_indegree_total l z ind v :
  (foldl Enhanced.relax (z, ind) l).2 !!! v =
  (ind !!! v - Z.of_nat (occurrences v l))%Z.
Proof.
  rewrite lookup_total_alt, relax_list_indegree. case_decide as Hv; [done|].
  assert (occurrences v l = 0) as ->.
  { assert (¬ 0 < occurrences v l); [|lia]. by rewrite occurrences_pos. }
  rewrite lookup_total_alt. lia.
Qed.

Lemma relax_list_zero l z ind x :
  x ∈ (foldl Enhanced.relax (z, ind) l).1 ↔
  x ∈ z ∨ (1 ≤ ind !!! x ≤ Z.of_nat (occurrences x l))%Z.
Proof.
  revert z ind. induction l as [|w l IH]; intros z ind.
  { simpl. cbn. intuition lia. }
  cbn [foldl]. unfold Enhanced.relax at 2. cbn [fst snd]. rewrite IH.
  rewrite occurrences_cons. destruct (decide (w = x)) as [->|Hne].
  - rewrite lookup_total_insert_eq.
    case_decide as Hd; [rewrite elem_of_union, elem_of_singleton|];
      intuition lia.
  - rewrite lookup_total_insert_ne by done.
    case_decide as Hd; [rewrite elem_of_union, elem_of_singleton|];
      intuition (congruence || lia).
Qed.

Lemma relax_list_perm l1 l2 zi :
  l1 ≡ₚ l2 → foldl Enhanced.relax zi l1 = foldl Enhanced.relax zi l2.
Proof.
  intros Hl. destruct zi as [z ind].
  rewrite (surjective_pairing (foldl _ _ l1)), (surjective_pairing (foldl _ _ l2)).
  f_equal.
  - apply set_eq. intros x. rewrite !relax_list_zero.
    by rewrite (occurrences_perm x l1 l2).
  - apply map_eq. intros v. rewrite !relax_list_indegree.
    rewrite (occurrences_perm v l1 l2) by done.
    apply decide_ext. by rewrite Hl.
Qed.

Lemma set_seq_perm z : Enhanced.set_seq z ≡ₚ elements z.
Proof. apply merge_sort_Permutation. Qed.

Lemma set_begin_None z : Enhanced.set_begin z = None ↔ z = ∅.
Proof.
  unfold Enhanced.set_begin. rewrite head_None. split.
  - intros Hnil. apply leibniz_equiv, elements_empty_inv.
    apply Permutation_nil_r. by rewrite <- set_seq_perm, Hnil.
  - intros ->. apply Permutation_nil_r. by rewrite set_seq_perm, elements_empty.
Qed.

Lemma set_begin_Some z u :
  Enhanced.set_begin z = Some u → u ∈ z ∧ ∀ w, w ∈ z → String.le u w.
Proof.
  unfold Enhanced.set_begin. intros Hhd.
  destruct (Enhanced.set_seq z) as [|u' l] eqn:Hseq; simplify_eq/=.
  pose proof (set_seq_perm z) as Hperm. rewrite Hseq in Hperm.
  assert (StronglySorted String.le (u :: l)) as Hsorted.
  { rewrite <- Hseq. apply (StronglySorted_merge_sort String.le). }
  split.
  - apply elem_of_elements. rewrite <- Hperm. apply list_elem_of_here.
  - intros w Hw. apply elem_of_elements in Hw. rewrite <- Hperm in Hw.
    apply elem_of_cons in Hw as [->|Hw]; [done|].
    apply StronglySorted_inv in Hsorted as [_ Hall].
    by apply (proj1 (Forall_forall _ _) Hall).
Qed.

End Relax.

Section KahnInvariant.

Variable catalog : Catalog.
Variable adj : Enhanced.Adj.

(** The two facts on the successor lists that the sort relies on. *)
Hypothesis adj_keys : ∀ u v, v ∈ adj !!! u → is_Some (catalog !! v).
Hypothesis adj_occurrences : ∀ u v c,
  catalog !! v = Some c → is_Some (catalog !! u) →
  occurrences v (adj !!! u) = occurrences u (prereqs c).

Lemma remaining_nonneg l c : (0 ≤ remaining catalog l c)%Z.
Proof. unfold remaining. lia. Qed.

Lemma remaining_nil c :
  remaining catalog [] c = Z.of_nat (in_degree catalog (prereqs c)).
Proof.
  unfold remaining, in_degree. do 2 f_equal. apply list_filter_iff.
  intros p. rewrite elem_of_nil. tauto.
Qed.

Lemma remaining_snoc l u c :
  is_Some (catalog !! u) → u ∉ l →
  remaining catalog (l ++ [u]) c =
  (remaining catalog l c - Z.of_nat (occurrences u (prereqs c)))%Z.
Proof.
  intros Hu Hul. unfold remaining.
  induction (prereqs c) as [|p ps IH]; [done|].
  rewrite !filter_cons, occurrences_cons.
  assert (∀ q, q ∈ l ++ [u] ↔ q ∈ l ∨ q = u) as Hsnoc.
  { intros q. by rewrite elem_of_app, list_elem_of_singleton. }
  destruct (decide (p = u)) as [->|Hne];
    repeat case_decide; cbn [length]; try lia;
    exfalso; rewrite ?Hsnoc in *; tauto.
Qed.

Lemma remaining_zero l c P :
  remaining catalog l c = 0%Z → P ∈ prereqs c → is_Some (catalog !! P) → P ∈ l.
Proof.
  unfold remaining. intros Hz HP Hcat.
  assert (filter (λ p, is_Some (catalog !! p) ∧ p ∉ l) (prereqs c) = []) as Hnil.
  { apply length_zero_iff_nil. lia. }
  destruct (decide (P ∈ l)) as [|Hn]; [done|].
  assert (P ∈ filter (λ p, is_Some (catalog !! p) ∧ p ∉ l) (prereqs c)) as Hin.
  { by apply list_elem_of_filter. }
  rewrite Hnil in Hin. by apply elem_of_nil in Hin.
Qed.

Lemma topo_ordered_snoc l u c :
  topo_ordered catalog l → catalog !! u = Some c →
  remaining catalog l c = 0%Z → topo_ordered catalog (l ++ [u]).
Proof.
  intros Hl Hu Hz i C P Hi Hedge.
  destruct (decide (i < length l)) as [Hlt|Hge].
  - rewrite lookup_app_l in Hi by done.
    destruct (Hl i C P Hi Hedge) as (j & Hj & HP).
    exists j. split; [done|]. rewrite lookup_app_l by lia. done.
  - assert (i = length l ∧ C = u) as [-> ->].
    { apply lookup_lt_Some in Hi as Hlen. rewrite length_app in Hlen.
      simpl in Hlen. assert (i = length l) as -> by lia.
      rewrite list_lookup_middle in Hi by done. by simplify_eq. }
    destruct Hedge as (c' & Hc' & HP & Hcat). simplify_eq.
    apply (remaining_zero l c P Hz HP) in Hcat.
    apply list_elem_of_lookup in Hcat as [j Hj].
    exists j. split; [by eapply lookup_lt_Some|].
    rewrite lookup_app_l by by eapply lookup_lt_Some. done.
Qed.

(** One iteration of the loop preserves the invariant. *)
Lemma kahn_step_inv st st' :
  kahn_inv catalog st → Enhanced.kahn_step adj st = Some st' →
  kahn_inv catalog st'.
Proof.
  intros [Hnd Hok Hzk Hdis Hind Hnone Hready Htopo]. unfold Enhanced.kahn_step.
  destruct (Enhanced.set_begin (Enhanced.zero st)) as [u|] eqn:Hu; [|done].
  intros [= <-]. apply set_begin_Some in Hu as [Hu _].
  destruct (Hzk u Hu) as [cu Hcu]. pose proof (Hdis u Hu) as Hu_order.
  assert (remaining catalog (Enhanced.order st) cu = 0%Z) as Hu_zero.
  { apply (Hready u cu Hcu). by left. }
  assert (∀ k c, catalog !! k = Some c →
    occurrences k (adj !!! u) = occurrences u (prereqs c)) as Hocc.
  { intros k c Hk. apply adj_occurrences; [done|by eexists]. }
  assert (∀ k c, catalog !! k = Some c →
    Enhanced.indegree st !!! k = remaining catalog (Enhanced.order st) c) as Hind'.
  { intros k c Hk. by rewrite lookup_total_alt, (Hind k c Hk). }
  split; cbn [Enhanced.zero Enhanced.indegree Enhanced.order].
  - apply NoDup_app. split_and!; [done| |apply NoDup_singleton].
    intros x Hx ->%list_elem_of_singleton. done.
  - intros x [Hx| ->%list_elem_of_singleton]%elem_of_app; [by apply Hok|].
    by eexists.
  - intros x. rewrite relax_list_zero, elem_of_difference.
    intros [[Hx _]|Hx]; [by apply Hzk|].
    apply (adj_keys u). apply occurrences_pos. lia.
  - intros x. rewrite relax_list_zero, elem_of_difference, elem_of_singleton.
    rewrite elem_of_app, list_elem_of_singleton.
    intros [[Hx Hxu]|Hx]; [specialize (Hdis x Hx); tauto|].
    assert (is_Some (catalog !! x)) as [cx Hcx].
    { apply (adj_keys u). apply occurrences_pos. lia. }
    rewrite (Hind' x cx Hcx) in Hx.
    assert (¬ (x ∈ Enhanced.zero st ∨ x ∈ Enhanced.order st)) as Hnot.
    { rewrite (Hready x cx Hcx). lia. }
    intros [?| ->]; tauto.
  - intros k c Hk. rewrite relax_list_indegree.
    rewrite (remaining_snoc _ u c) by (done || by eexists).
    rewrite (Hind' k c Hk), (Hind k c Hk), (Hocc k c Hk).
    case_decide as Hin; [done|]. f_equal.
    assert (¬ 0 < occurrences k (adj !!! u)) as Hz by by rewrite occurrences_pos.
    rewrite (Hocc k c Hk) in Hz. lia.
  - intros k Hk. rewrite relax_list_indegree, decide_False; [by apply Hnone|].
    intros [? ?]%(adj_keys u). congruence.
  - intros k c Hk. rewrite relax_list_zero, elem_of_difference, elem_of_singleton.
    rewrite elem_of_app, list_elem_of_singleton.
    rewrite (remaining_snoc _ u c) by (done || by eexists).
    rewrite (Hind' k c Hk), (Hocc k c Hk).
    pose proof (Hready k c Hk) as Hr.
    pose proof (remaining_nonneg (Enhanced.order st) c).
    pose proof (remaining_nonneg (Enhanced.order st ++ [u]) c) as Hr'.
    rewrite (remaining_snoc _ u c) in Hr' by (done || by eexists).
    split.
    + intros [[[Hz _]|Hone]|[Ho| ->]].
      * assert (remaining catalog (Enhanced.order st) c = 0%Z) by tauto. lia.
      * lia.
      * assert (remaining catalog (Enhanced.order st) c = 0%Z) by tauto. lia.
      * simplify_eq. lia.
    + intros Heq.
      destruct (decide (remaining catalog (Enhanced.order st) c = 0%Z)) as [Hz|Hnz].
      * destruct (decide (k = u)); [tauto|]. apply Hr in Hz. tauto.
      * left. right. lia.
  - by apply (topo_ordered_snoc _ u cu).
Qed.

Lemma keys_length {V} (m : gmap string V) (l : list string) :
  NoDup l → (∀ x, x ∈ l → is_Some (m !! x)) → length l ≤ size m.
Proof.
  intros Hnd Hl. rewrite <- size_dom. unfold size, set_size. simpl.
  apply submseteq_length, NoDup_submseteq; [done|].
  intros x Hx. apply elem_of_elements, elem_of_dom. by apply Hl.
Qed.

(** The loop ends within the bound, with an empty ready set, in a state
    that satisfies the invariant. *)
Lemma kahn_loop_inv fuel st :
  kahn_inv catalog st →
  size catalog ≤ fuel + length (Enhanced.order st) →
  ∃ st', Enhanced.kahn_loop fuel adj st = Some (Enhanced.order st') ∧
         kahn_inv catalog st' ∧ Enhanced.zero st' = ∅.
Proof.
  revert st. induction fuel as [|fuel IH]; intros st Hinv Hfuel.
  - cbn [Enhanced.kahn_loop].
    destruct (Enhanced.kahn_step adj st) as [st'|] eqn:Hstep.
    + exfalso. pose proof (kahn_step_inv st st' Hinv Hstep) as Hinv'.
      pose proof (keys_length catalog _ (inv_nodup _ _ Hinv')
                    (inv_order_keys _ _ Hinv')) as Hlen.
      unfold Enhanced.kahn_step in Hstep.
      destruct (Enhanced.set_begin _); simplify_eq/=.
      rewrite length_app in Hlen. simpl in *. lia.
    + exists st. split_and!; [done..|].
      unfold Enhanced.kahn_step in Hstep.
      destruct (Enhanced.set_begin _) eqn:Hb; [done|].
      by apply set_begin_None.
  - cbn [Enhanced.kahn_loop].
    destruct (Enhanced.kahn_step adj st) as [st'|] eqn:Hstep.
    + apply IH; [by eapply kahn_step_inv|].
      unfold Enhanced.kahn_step in Hstep.
      destruct (Enhanced.set_begin _); simplify_eq/=.
      rewrite length_app. simpl. lia.
    + exists st. split_and!; [done..|].
      unfold Enhanced.kahn_step in Hstep.
      destruct (Enhanced.set_begin _) eqn:Hb; [done|].
      by apply set_begin_None.
Qed.

End KahnInvariant.

Section SortSpec.

Variable iter : ∀ V : Type, gmap string V → list (string * V).
Hypothesis iter_ok : valid_iter iter.
Variable catalog : Catalog.

Lemma initial_zero_spec (ind : Enhanced.Indegree) x :
  x ∈ Enhanced.initial_zero iter ind ↔ ind !! x = Some 0%Z.
Proof.
  unfold Enhanced.initial_zero. rewrite <- (elem_of_iter iter iter_ok).
  generalize (iter Z ind). intros l.
  assert (∀ z : gset string,
    x ∈ foldl (λ zero kv, if decide (kv.2 = 0%Z) then {[kv.1]} ∪ zero else zero)
          z l ↔ x ∈ z ∨ (x, 0%Z) ∈ l) as Hfold.
  { induction l as [|[k d] l IH]; intros z.
    - simpl. rewrite elem_of_nil. tauto.
    - cbn [foldl]. rewrite IH, elem_of_cons. cbn [fst snd].
      case_decide as Hd.
      + rewrite elem_of_union, elem_of_singleton. subst d.
        split; [intros [[->|?]|?]; tauto|].
        intros [?|[[= ->]|?]]; tauto.
      + split; [tauto|]. intros [?|[[= ? ?]|?]]; [tauto|congruence|tauto]. }
  rewrite Hfold, elem_of_empty. tauto.
Qed.

Lemma initial_inv :
  let g := Enhanced.buildGraph iter catalog in
  kahn_inv catalog
    (Enhanced.mkSortState (Enhanced.initial_zero iter g.2) g.2 []).
Proof.
  intros g. subst g.
  split; cbn [Enhanced.zero Enhanced.indegree Enhanced.order].
  - apply NoDup_nil_2.
  - by intros x ?%elem_of_nil.
  - intros x Hx%initial_zero_spec.
    destruct (catalog !! x) eqn:Hc; [by eexists|].
    by rewrite (buildGraph_indegree_None iter iter_ok catalog x Hc) in Hx.
  - intros x _. apply not_elem_of_nil.
  - intros k c Hk. rewrite remaining_nil. by apply buildGraph_indegree.
  - intros k Hk. by apply buildGraph_indegree_None.
  - intros k c Hk. rewrite remaining_nil, initial_zero_spec.
    rewrite (buildGraph_indegree iter iter_ok catalog k c Hk), elem_of_nil.
    split; [intros [[=]|[]]; lia|intros ->; by left].
  - by intros i C P ?.
Qed.

(** The sorter returns within its bound; its result is the [order] of a
    final state that satisfies the invariant and has no ready code left. *)
Lemma recommendedOrder_returns :
  ∃ st, Enhanced.recommendedOrder iter catalog = Some (Enhanced.order st) ∧
        kahn_inv catalog st ∧ Enhanced.zero st = ∅.
Proof.
  unfold Enhanced.recommendedOrder. apply kahn_loop_inv.
  - intros u v Hv. by apply (buildGraph_adj_elem iter iter_ok catalog u v).
  - intros u v c Hv Hu. by apply buildGraph_adj_occurrences.
  - apply initial_inv.
  - simpl. lia.
Qed.

Lemma kahn_reachable_inv st :
  kahn_reachable iter catalog st → kahn_inv catalog st.
Proof.
  unfold kahn_reachable. intros Hreach.
  eapply (rtc_ind_r (λ s, kahn_inv catalog s)); [| |exact Hreach].
  - apply initial_inv.
  - intros s2 s3 _ Hstep IH. cbn beta in *.
    eapply kahn_step_inv; [| |exact IH|exact Hstep].
    + intros u v Hv. by apply (buildGraph_adj_elem iter iter_ok catalog u v).
    + intros u v c Hv Hu. by apply buildGraph_adj_occurrences.
Qed.

(** Along the run, the ready set holds exactly the codes not yet in the
    output whose remaining in-degree is zero. *)
Lemma kahn_reachable_ready st w :
  kahn_reachable iter catalog st →
  (w ∈ Enhanced.zero st ↔
   (¬ w ∈ Enhanced.order st) ∧ Enhanced.indegree st !! w = Some 0%Z).
Proof.
  intros [Hnd Hok Hzk Hdis Hind Hnone Hready Htopo]%kahn_reachable_inv. split.
  - intros Hw. split; [by apply Hdis|].
    destruct (Hzk w Hw) as [c Hc]. rewrite (Hind w c Hc). f_equal.
    apply (Hready w c Hc). by left.
  - intros [Hw Hz]. destruct (catalog !! w) as [c|] eqn:Hc.
    + rewrite (Hind w c Hc) in Hz.
      assert (w ∈ Enhanced.zero st ∨ w ∈ Enhanced.order st) as [?|?]; [|done..].
      apply (Hready w c Hc). congruence.
    + by rewrite (Hnone w Hc) in Hz.
Qed.

(** Each time the loop condition is evaluated, the stored in-degrees lie
    between 0 and the length of the course's prerequisite list. *)
Lemma kahn_reachable_indegree_bounds st k d :
  kahn_reachable iter catalog st → Enhanced.indegree st !! k = Some d →
  ∃ c, catalog !! k = Some c ∧ (0 ≤ d ≤ Z.of_nat (length (prereqs c)))%Z.
Proof.
  intros Hinv%kahn_reachable_inv Hd.
  destruct (catalog !! k) as [c|] eqn:Hk.
  - rewrite (inv_indegree _ _ Hinv k c Hk) in Hd. simplify_eq.
    exists c. split; [done|]. unfold remaining.
    pose proof (length_filter
      (λ p, is_Some (catalog !! p) ∧ p ∉ Enhanced.order st) (prereqs c)). lia.
  - by rewrite (inv_indegree_none _ _ Hinv k Hk) in Hd.
Qed.

End SortSpec.

Section Cycles.

Variable catalog : Catalog.

Lemma before_along_path (l : list string) x y :
  topo_ordered catalog l → tc (prereq_edge catalog) x y →
  ∀ i, l !! i = Some y → ∃ j, j < i ∧ l !! j = Some x.
Proof.
  intros Htopo Hxy. induction Hxy as [x y Hedge|x z y Hedge _ IH]; intros i Hi.
  - by eapply Htopo.
  - destruct (IH i Hi) as (j & Hj & Hz).
    destruct (Htopo j z x Hz Hedge) as (j' & Hj' & Hx).
    exists j'. split; [lia|done].
Qed.

Lemma cycle_not_sorted (l : list string) x :
  topo_ordered catalog l → tc (prereq_edge catalog) x x → x ∉ l.
Proof.
  intros Htopo Hcycle Hx.
  assert (∀ n i, i < n → l !! i ≠ Some x) as Hnone.
  { induction n as [|n IH]; intros i Hi Hl; [lia|].
    destruct (before_along_path l x x Htopo Hcycle i Hl) as (j & Hj & Hlj).
    apply (IH j); [lia|done]. }
  apply list_elem_of_lookup in Hx as [i Hi]. apply (Hnone (S i) i); [lia|done].
Qed.

Lemma cycle_in_catalog x :
  tc (prereq_edge catalog) x x → is_Some (catalog !! x).
Proof.
  assert (∀ y, tc (prereq_edge catalog) x y → is_Some (catalog !! x)) as Hgen.
  { intros y Hxy. by destruct Hxy as [? ? (? & _ & _ & ?)|? ? ? (? & _ & _ & ?) _]. }
  apply Hgen.
Qed.

Lemma keys_length_missing (l : list string) x :
  NoDup l → (∀ y, y ∈ l → is_Some (catalog !! y)) →
  is_Some (catalog !! x) → x ∉ l → length l < size catalog.
Proof.
  intros Hnd Hl Hx Hxl.
  assert (length l ≤ size (delete x catalog)) as Hlen.
  { apply keys_length; [done|]. intros y Hy.
    rewrite lookup_delete_ne; [by apply Hl|]. by intros ->. }
  rewrite map_size_delete_Some in Hlen by done.
  assert (size catalog ≠ 0); [|lia].
  apply map_size_non_empty_iff. intros ->.
  rewrite lookup_empty in Hx. by destruct Hx.
Qed.

Lemma order_row_is_Some i k :
  is_Some (catalog !! k) → is_Some (Enhanced.order_row catalog i k).
Proof. intros [c Hc]. unfold Enhanced.order_row. rewrite Hc. by eexists. Qed.

Lemma order_rows_is_Some (l : list string) :
  (∀ k, k ∈ l → is_Some (catalog !! k)) →
  is_Some (Enhanced.order_rows catalog l).
Proof.
  intros Hl. unfold Enhanced.order_rows.
  apply fmap_is_Some, mapM_is_Some_2, Forall_forall.
  intros [i k] (i' & k' & [= -> ->] & Hk)%elem_of_lookup_imap_1. simpl.
  apply order_row_is_Some, Hl. by eapply list_elem_of_lookup_2.
Qed.

End Cycles.

(** C1. The sorter returns an order in which every course comes after
    all of its in-catalog prerequisites: when [C] is at position [i] and
    [P], a catalog key, is listed among the prerequisites of [C], then [P]
    is at a position [j < i]. *)
Theorem recommendedOrder_topological iter (catalog : Catalog) :
  valid_iter iter →
  ∃ order,
    Enhanced.recommendedOrder iter catalog = Some order ∧
    ∀ i C c P,
      order !! i = Some C → catalog !! C = Some c →
      P ∈ prereqs c → is_Some (catalog !! P) →
      ∃ j, j < i ∧ order !! j = Some P.
Proof.
  intros Hiter.
  destruct (recommendedOrder_returns iter Hiter catalog) as (st & Hst & Hinv & _).
  exists (Enhanced.order st). split; [done|].
  intros i C c P Hi HC HP Hcat.
  apply (inv_topo _ _ Hinv i C P Hi). by exists c.
Qed.

(** ** Independence of the hash order *)

Section Determinism.

Lemma occurrences_eq_perm (l1 l2 : list string) :
  (∀ x, occurrences x l1 = occurrences x l2) → l1 ≡ₚ l2.
Proof.
  revert l2. induction l1 as [|a l1 IH]; intros l2 Hocc.
  - destruct l2 as [|y l2]; [done|].
    specialize (Hocc y). rewrite occurrences_cons, decide_True in Hocc by done.
    cbn in Hocc. lia.
  - assert (a ∈ l2) as [l2' Hl2]%elem_of_Permutation.
    { apply occurrences_pos. rewrite <- Hocc, occurrences_cons.
      rewrite decide_True by done. lia. }
    rewrite Hl2. f_equiv. apply IH. intros x.
    specialize (Hocc x). rewrite (occurrences_perm x l2 (a :: l2') Hl2) in Hocc.
    rewrite !occurrences_cons in Hocc. lia.
Qed.

Lemma kahn_step_perm (adj1 adj2 : Enhanced.Adj) st :
  (∀ u, adj1 !!! u ≡ₚ adj2 !!! u) →
  Enhanced.kahn_step adj1 st = Enhanced.kahn_step adj2 st.
Proof.
  intros Hadj. unfold Enhanced.kahn_step.
  destruct (Enhanced.set_begin (Enhanced.zero st)) as [u|]; [|done].
  by rewrite (relax_list_perm _ _ _ (Hadj u)).
Qed.

Lemma kahn_loop_perm (adj1 adj2 : Enhanced.Adj) fuel st :
  (∀ u, adj1 !!! u ≡ₚ adj2 !!! u) →
  Enhanced.kahn_loop fuel adj1 st = Enhanced.kahn_loop fuel adj2 st.
Proof.
  intros Hadj. revert st. induction fuel as [|fuel IH]; intros st;
    cbn [Enhanced.kahn_loop]; rewrite (kahn_step_perm adj1 adj2 st Hadj);
    destruct (Enhanced.kahn_step adj2 st); auto.
Qed.

Variables iter1 iter2 : ∀ V : Type, gmap string V → list (string * V).
Hypothesis iter1_ok : valid_iter iter1.
Hypothesis iter2_ok : valid_iter iter2.
Variable catalog : Catalog.

Lemma buildGraph_indegree_indep :
  (Enhanced.buildGraph iter1 catalog).2 = (Enhanced.buildGraph iter2 catalog).2.
Proof.
  apply map_eq. intros k. destruct (catalog !! k) as [c|] eqn:Hk.
  - by rewrite (buildGraph_indegree iter1 iter1_ok catalog k c),
               (buildGraph_indegree iter2 iter2_ok catalog k c).
  - by rewrite (buildGraph_indegree_None iter1 iter1_ok),
               (buildGraph_indegree_None iter2 iter2_ok).
Qed.

Lemma buildGraph_adj_indep u :
  (Enhanced.buildGraph iter1 catalog).1 !!! u ≡ₚ
  (Enhanced.buildGraph iter2 catalog).1 !!! u.
Proof.
  apply occurrences_eq_perm. intros C.
  destruct (catalog !! u) as [cu|] eqn:Hu, (catalog !! C) as [c|] eqn:HC.
  { rewrite (buildGraph_adj_occurrences iter1 iter1_ok catalog u C c),
            (buildGraph_adj_occurrences iter2 iter2_ok catalog u C c);
      done || by eexists. }
  all: assert (∀ iter, valid_iter iter →
         occurrences C ((Enhanced.buildGraph iter catalog).1 !!! u) = 0) as Hz;
    [|by rewrite !Hz].
  all: intros iter Hiter;
    assert (¬ 0 < occurrences C ((Enhanced.buildGraph iter catalog).1 !!! u));
    [|lia].
  all: rewrite occurrences_pos;
    intros [[? ?] [? ?]]%(buildGraph_adj_elem iter Hiter); congruence.
Qed.

Lemma initial_zero_indep (ind : Enhanced.Indegree) :
  Enhanced.initial_zero iter1 ind = Enhanced.initial_zero iter2 ind.
Proof.
  apply set_eq. intros x.
  by rewrite (initial_zero_spec iter1 iter1_ok), (initial_zero_spec iter2 iter2_ok).
Qed.

Lemma recommendedOrder_indep :
  Enhanced.recommendedOrder iter1 catalog = Enhanced.recommendedOrder iter2 catalog.
Proof.
  unfold Enhanced.recommendedOrder.
  rewrite buildGraph_indegree_indep, initial_zero_indep.
  apply kahn_loop_perm, buildGraph_adj_indep.
Qed.

End Determinism.

(** C10. The order that the sorter returns lists catalog keys only, each
    at most once; so every [catalog.at (order[i])] of the report finds its
    course, and the report is printed without an exception. *)
Theorem recommendedOrder_keys_once iter (catalog : Catalog) :
  valid_iter iter →
  ∃ order,
    Enhanced.recommendedOrder iter catalog = Some order ∧
    NoDup order ∧
    (∀ k, k ∈ order → is_Some (catalog !! k)) ∧
    (∀ i k, order !! i = Some k → is_Some (Enhanced.order_row catalog i k)) ∧
    ∃ out, Enhanced.printRecommendedOrder iter catalog = Returns out.
Proof.
  intros Hiter.
  destruct (recommendedOrder_returns iter Hiter catalog) as (st & Hst & Hinv & _).
  exists (Enhanced.order st).
  pose proof (inv_order_keys _ _ Hinv) as Hkeys.
  split_and!; [done|apply Hinv|done| |].
  - intros i k Hk. apply order_row_is_Some, Hkeys.
    by eapply list_elem_of_lookup_2.
  - unfold Enhanced.printRecommendedOrder. case_decide; [by eexists|].
    rewrite Hst.
    destruct (order_rows_is_Some catalog _ Hkeys) as [rows ->]. by eexists.
Qed.

(** ** The loader *)

Section Loader.

Lemma addPrereq_list_number (c : Course) (ps : list string) :
  number (foldl Enhanced.addPrereq c ps) = number c.
Proof.
  revert c. induction ps as [|p ps IH]; intros c; [done|].
  cbn [foldl]. rewrite IH. unfold Enhanced.addPrereq. by case_decide.
Qed.

Lemma key_consistent_empty : key_consistent ∅.
Proof. intros k c Hk. by rewrite lookup_empty in Hk. Qed.

Lemma key_consistent_insert (catalog : Catalog) (c : Course) f0 :
  number c = canonCode f0 →
  key_consistent catalog → key_consistent (<[canonCode f0 := c]> catalog).
Proof.
  intros Hnum Hcat k c' [[<- <-]|[_ Hk]]%lookup_insert_Some; [|by apply Hcat].
  split_and!; [done|..].
  - apply canonCode_fixed, canonCode_normalized.
  - apply canonCode_normalized.
Qed.

Lemma original_load_line_consistent st line :
  key_consistent (Original.ls_catalog st) →
  key_consistent (Original.ls_catalog (Original.load_line st line)).
Proof.
  intros Hst. unfold Original.load_line.
  destruct (comment_or_blank _); [done|].
  destruct (splitCSV line) as [|f0 [|f1 rest]]; [done..|].
  cbn [number]. case_decide; [done|].
  cbn [Original.ls_catalog]. by apply key_consistent_insert.
Qed.

Lemma original_load_lines_consistent lines :
  key_consistent (Original.ls_catalog (Original.load_lines lines)).
Proof.
  unfold Original.load_lines.
  assert (∀ st, key_consistent (Original.ls_catalog st) →
    key_consistent (Original.ls_catalog (foldl Original.load_line st lines)))
    as Hfold.
  { induction lines as [|line lines IH]; intros st Hst; [done|].
    cbn [foldl]. by apply IH, original_load_line_consistent. }
  apply Hfold, key_consistent_empty.
Qed.

Lemma enhanced_load_line_consistent (catalog : Catalog) line :
  key_consistent catalog → key_consistent (Enhanced.load_line catalog line).
Proof.
  intros Hcat. unfold Enhanced.load_line.
  destruct (comment_or_blank _); [done|].
  destruct (splitCSV line) as [|f0 [|f1 rest]]; [done..|].
  rewrite addPrereq_list_number. cbn [Enhanced.newCourse number].
  apply key_consistent_insert; [|done].
  by rewrite addPrereq_list_number.
Qed.

Lemma enhanced_load_lines_consistent lines :
  key_consistent (Enhanced.load_lines lines).
Proof.
  unfold Enhanced.load_lines.
  assert (∀ catalog : Catalog, key_consistent catalog →
    key_consistent (foldl Enhanced.load_line catalog lines)) as Hfold.
  { induction lines as [|line lines IH]; intros catalog Hcat; [done|].
    cbn [foldl]. by apply IH, enhanced_load_line_consistent. }
  apply Hfold, key_consistent_empty.
Qed.

(** The original loader never stores a course under the empty code, and
    reports each record it rejects for that reason. *)
Lemma original_load_line_empty_code st line f0 f1 rest :
  comment_or_blank (trim (stripBOM line)) = false →
  splitCSV line = f0 :: f1 :: rest → canonCode f0 = "" →
  Original.load_line st line =
  Original.mkLoadState (Original.ls_catalog st) (S (Original.ls_lineNum st))
    (Original.ls_cerr st +:+ Original.warn_empty_code (S (Original.ls_lineNum st))).
Proof.
  intros Hcheck Hsplit Hcode. unfold Original.load_line.
  rewrite Hcheck, Hsplit. cbn [number]. by rewrite decide_True.
Qed.

Lemma original_load_no_empty_code lines :
  Original.ls_catalog (Original.load_lines lines) !! "" = None.
Proof.
  unfold Original.load_lines.
  assert (∀ st, Original.ls_catalog st !! "" = None →
    Original.ls_catalog (foldl Original.load_line st lines) !! "" = None)
    as Hfold.
  { induction lines as [|line lines IH]; intros st Hst; [done|].
    cbn [foldl]. apply IH. unfold Original.load_line.
    destruct (comment_or_blank _); [done|].
    destruct (splitCSV line) as [|f0 [|f1 rest]]; [done..|].
    cbn [number]. case_decide; [done|].
    cbn [Original.ls_catalog]. by rewrite lookup_insert_ne. }
  by apply Hfold.
Qed.

End Loader.

(** C5. When the file cannot be opened, the loader returns [false] and
    the catalog is the one it was given, and the menu prints its failure
    message and keeps that catalog; when the file opens, the loader returns
    [true] and the catalog is rebuilt from the empty catalog, whatever the
    previous one was. *)
Theorem loadCourses_open_failure (fs : FileSystem) filename (catalog : Catalog) :
  (fs filename = None →
     Original.loadCourses fs filename catalog = (false, catalog, "") ∧
     Enhanced.loadCourses fs filename catalog = (false, catalog) ∧
     ∀ line, trim line = filename →
       (filename ≠ "" →
        Original.choice_load fs line catalog =
          (Original.msg_open_failed filename, catalog)) ∧
       Enhanced.choice_load fs line catalog =
         (Enhanced.msg_open_failed, catalog)) ∧
  (∀ content, fs filename = Some content →
     let lines := getline_all "010"%char None content in
     Original.loadCourses fs filename catalog =
       (true, Original.ls_catalog (Original.load_lines lines),
        Original.ls_cerr (Original.load_lines lines)) ∧
     Enhanced.loadCourses fs filename catalog =
       (true, Enhanced.load_lines lines)).
Proof.
  split.
  - intros Hfs. split_and!.
    + unfold Original.loadCourses. by rewrite Hfs.
    + unfold Enhanced.loadCourses. by rewrite Hfs.
    + intros line Hline. split.
      * intros Hne. unfold Original.choice_load, Original.loadCourses.
        rewrite Hline, Hfs. by rewrite decide_False.
      * unfold Enhanced.choice_load, Enhanced.loadCourses.
        by rewrite Hline, Hfs.
  - intros content Hfs. unfold Original.loadCourses, Enhanced.loadCourses.
    by rewrite Hfs.
Qed.

(** C9. After a load, every key of the catalog is the code stored in
    its course and is a fixed point of the normalizer made of upper-case
    letters and digits only, as soon as the file opened or the catalog had
    that property before the call (the program starts with the empty
    catalog, which has it); and then any query that normalizes to a key
    finds the course stored under it. *)
Theorem loadCourses_key_consistent (fs : FileSystem) filename (catalog : Catalog) :
  is_Some (fs filename) ∨ key_consistent catalog →
  ∀ catalog' : Catalog,
    catalog' = (Original.loadCourses fs filename catalog).1.2 ∨
    catalog' = (Enhanced.loadCourses fs filename catalog).2 →
    key_consistent catalog' ∧
    ∀ k c q, catalog' !! k = Some c → canonCode q = k →
      catalog' !! canonCode q = Some c ∧
      Original.printSingleCourse catalog' q = Original.show_course catalog' c ∧
      Enhanced.printSingleCourse catalog' q = Enhanced.show_course c.
Proof.
  intros Hpre catalog' Hload. split.
  - unfold Original.loadCourses, Enhanced.loadCourses in Hload.
    destruct (fs filename) as [content|].
    + destruct Hload as [-> | ->]; cbn [fst snd].
      * apply original_load_lines_consistent.
      * apply enhanced_load_lines_consistent.
    + destruct Hpre as [[? [=]]|Hcat].
      by destruct Hload as [-> | ->].
  - intros k c q Hk <-. split_and!; [done| |].
    + unfold Original.printSingleCourse. rewrite Hk.
      rewrite decide_False; [done|]. intros ->. by rewrite lookup_empty in Hk.
    + unfold Enhanced.printSingleCourse. by rewrite Hk.
Qed.

(** C6. On a file whose record has an empty first field, the enhanced
    loader stores the course under the empty code and reports nothing,
    whereas the original loader skips the record with a warning. *)
Theorem enhanced_load_stores_empty_code :
  Enhanced.loadCourses empty_code_fs "courses.csv" ∅ =
    (true, {[ "" := {| number := ""; title := "Intro"; prereqs := [] |} ]}) ∧
  Original.loadCourses empty_code_fs "courses.csv" ∅ =
    (true, ∅, Original.warn_empty_code 1) ∧
  (∀ lines, Original.ls_catalog (Original.load_lines lines) !! "" = None).
Proof.
  split_and!; [by vm_compute..|].
  apply original_load_no_empty_code.
Qed.

(** C7. On the empty catalog the listing and the ordering of both programs
    and the detail query of the original program print the empty-catalog
    message, but the detail query of the enhanced program prints its
    course-not-found message, which is a different text. *)
Theorem enhanced_detail_on_empty_catalog :
  (∀ iter, Original.printCourseList iter ∅ = Returns Original.msg_no_data) ∧
  (∀ q, Original.printSingleCourse ∅ q = Original.msg_no_data) ∧
  (∀ iter, Enhanced.printCourseList iter ∅ = Returns Enhanced.msg_no_data) ∧
  (∀ iter, Enhanced.printRecommendedOrder iter ∅ = Returns Enhanced.msg_no_data) ∧
  (∀ q, Enhanced.printSingleCourse ∅ q = Enhanced.msg_not_found) ∧
  Enhanced.msg_not_found ≠ Enhanced.msg_no_data.
Proof.
  split_and!; done.
Qed.

(** ** Runs of the model *)

Lemma key_order_valid : valid_iter key_order.
Proof. by intros V m. Qed.

Lemma rev_order_valid : valid_iter rev_order.
Proof. intros V m. apply reverse_Permutation. Qed.

Example sample_catalog_keys :
  (map_to_list sample_catalog).*1 = ["CSCI101"; "CSCI100"; "CSCI200"].
Proof. by vm_compute. Qed.

Example sample_order :
  Enhanced.recommendedOrder key_order sample_catalog =
    Some ["CSCI100"; "CSCI101"; "CSCI200"] ∧
  Enhanced.recommendedOrder rev_order sample_catalog =
    Some ["CSCI100"; "CSCI101"; "CSCI200"].
Proof. by vm_compute. Qed.

Example sample_report :
  Enhanced.printRecommendedOrder key_order sample_catalog =
  Returns ("Recommended Course Order:" +:+ nl +:+
           "1. CSCI100 - Intro to CS" +:+ nl +:+
           "2. CSCI101 - Intro to Programming" +:+ nl +:+
           "3. CSCI200 - Data Structures" +:+ nl).
Proof. by vm_compute. Qed.

Example sample_detail :
  Original.printSingleCourse sample_catalog "csci200" =
  "CSCI200, Data Structures" +:+ nl +:+
  "Prerequisites: CSCI101, Intro to Programming; MATH201 (title unavailable)"
    +:+ nl.
Proof. by vm_compute. Qed.

Example sample_listing :
  Original.printCourseList key_order sample_catalog =
  Returns ("Here is a sample schedule:" +:+ nl +:+
           "CSCI100, Intro to CS" +:+ nl +:+
           "CSCI101, Intro to Programming" +:+ nl +:+
           "CSCI200, Data Structures" +:+ nl).
Proof. by vm_compute. Qed.

Example splitCSV_trailing_comma : splitCSV "a, b ,,c," = ["a"; "b"; ""; "c"].
Proof. by vm_compute. Qed.

(** C4, direction of the edges: a successor list belongs to the
    prerequisite.  Read the other way, with [P] in the successor list of
    [C], the count fails on the chain A, B where B requires A: the
    successor list of B is empty. *)
Lemma buildGraph_successor_list_counterexample :
  ¬ (∀ P C c,
       chain_catalog !! C = Some c → is_Some (chain_catalog !! P) →
       occurrences P ((Enhanced.buildGraph key_order chain_catalog).1 !!! C) =
       occurrences P (prereqs c)).
Proof.
  intros Hall.
  specialize (Hall "A" "B" _ eq_refl (ex_intro _ _ eq_refl)).
  vm_compute in Hall. discriminate.
Qed.

(** ** The theorems at the sample data *)

Lemma recommendedOrder_topological_witness :
  valid_iter key_order ∧
  ∃ order,
    Enhanced.recommendedOrder key_order sample_catalog = Some order ∧
    ∀ i C c P,
      order !! i = Some C → sample_catalog !! C = Some c →
      P ∈ prereqs c → is_Some (sample_catalog !! P) →
      ∃ j, j < i ∧ order !! j = Some P.
Proof.
  assert (valid_iter key_order) as Hiter by (intros V m; reflexivity).
  split; [exact Hiter|].
  exact (recommendedOrder_topological key_order sample_catalog Hiter).
Defined.

Lemma buildGraph_spec_witness :
  valid_iter key_order ∧
  let g := Enhanced.buildGraph key_order sample_catalog in
  dom g.1 = dom sample_catalog ∧
  dom g.2 = dom sample_catalog ∧
  (∀ P C c, sample_catalog !! C = Some c → is_Some (sample_catalog !! P) →
     occurrences C (g.1 !!! P) = occurrences P (prereqs c)) ∧
  (∀ P C, C ∈ g.1 !!! P →
     is_Some (sample_catalog !! P) ∧ is_Some (sample_catalog !! C)) ∧
  (∀ C c, sample_catalog !! C = Some c →
     g.2 !! C = Some (Z.of_nat (in_degree sample_catalog (prereqs c)))) ∧
  (∀ P, sample_catalog !! P = None → g.1 !! P = None ∧ g.2 !! P = None).
Proof.
  assert (valid_iter key_order) as Hiter by (intros V m; reflexivity).
  split; [exact Hiter|].
  exact (buildGraph_spec key_order sample_catalog Hiter).
Defined.

Lemma loadCourses_open_failure_witness :
  sample_fs "missing.csv" = None ∧
  (Original.loadCourses sample_fs "missing.csv" sample_catalog =
     (false, sample_catalog, "") ∧
   Enhanced.loadCourses sample_fs "missing.csv" sample_catalog =
     (false, sample_catalog)) ∧
  (trim " missing.csv " = "missing.csv" ∧ "missing.csv" ≠ "") ∧
  (Original.choice_load sample_fs " missing.csv " sample_catalog =
     (Original.msg_open_failed "missing.csv", sample_catalog) ∧
   Enhanced.choice_load sample_fs " missing.csv " sample_catalog =
     (Enhanced.msg_open_failed, sample_catalog)) ∧
  sample_fs "courses.csv" = Some sample_file ∧
  (let lines := getline_all "010"%char None sample_file in
   Original.loadCourses sample_fs "courses.csv" cycle_catalog =
     (true, Original.ls_catalog (Original.load_lines lines),
      Original.ls_cerr (Original.load_lines lines)) ∧
   Enhanced.loadCourses sample_fs "courses.csv" cycle_catalog =
     (true, Enhanced.load_lines lines)).
Proof.
  assert (sample_fs "missing.csv" = None) as Hmissing by reflexivity.
  assert (sample_fs "courses.csv" = Some sample_file) as Hopen by reflexivity.
  assert (trim " missing.csv " = "missing.csv") as Htrim by reflexivity.
  assert ("missing.csv" ≠ "") as Hne by discriminate.
  destruct (proj1 (loadCourses_open_failure sample_fs "missing.csv"
                     sample_catalog) Hmissing) as (Ho & He & Hmenu).
  destruct (Hmenu " missing.csv " Htrim) as [Hmo Hme].
  split_and!.
  - exact Hmissing.
  - exact Ho.
  - exact He.
  - exact Htrim.
  - exact Hne.
  - exact (Hmo Hne).
  - exact Hme.
  - exact Hopen.
  - exact (proj2 (loadCourses_open_failure sample_fs "courses.csv"
                    cycle_catalog) sample_file Hopen).
Defined.

Lemma loadCourses_key_consistent_witness :
  (is_Some (sample_fs "courses.csv") ∨ key_consistent cycle_catalog) ∧
  key_consistent sample_catalog ∧
  ∀ k c q, sample_catalog !! k = Some c → canonCode q = k →
    sample_catalog !! canonCode q = Some c ∧
    Original.printSingleCourse sample_catalog q =
      Original.show_course sample_catalog c ∧
    Enhanced.printSingleCourse sample_catalog q = Enhanced.show_course c.
Proof.
  assert (is_Some (sample_fs "courses.csv") ∨ key_consistent cycle_catalog)
    as Hpre by (left; eexists; reflexivity).
  split; [exact Hpre|].
  exact (loadCourses_key_consistent sample_fs "courses.csv" cycle_catalog Hpre
           sample_catalog (or_intror eq_refl)).
Defined.

Lemma canonCode_idempotent_insensitive_witness :
  upcase "csci101" = upcase "CsCi101" ∧
  canonCode "csci101" = canonCode "CsCi101" ∧
  isspace " "%char = true ∧
  canonCode ("csci" +:+ String " "%char "101") = canonCode ("csci" +:+ "101").
Proof.
  assert (upcase "csci101" = upcase "CsCi101") as Hcase by reflexivity.
  assert (isspace " "%char = true) as Hspace by reflexivity.
  destruct canonCode_idempotent_insensitive as (_ & Hupcase & Hblank & _).
  split_and!.
  - exact Hcase.
  - exact (Hupcase "csci101" "CsCi101" Hcase).
  - exact Hspace.
  - exact (Hblank "csci" " "%char "101" Hspace).
Defined.

Lemma recommendedOrder_keys_once_witness :
  valid_iter key_order ∧
  ∃ order,
    Enhanced.recommendedOrder key_order sample_catalog = Some order ∧
    NoDup order ∧
    (∀ k, k ∈ order → is_Some (sample_catalog !! k)) ∧
    (∀ i k, order !! i = Some k →
       is_Some (Enhanced.order_row sample_catalog i k)) ∧
    ∃ out, Enhanced.printRecommendedOrder key_order sample_catalog = Returns out.
Proof.
  assert (valid_iter key_order) as Hiter by (intros V m; reflexivity).
  split; [exact Hiter|].
  exact (recommendedOrder_keys_once key_order sample_catalog Hiter).
Defined.

(** * Further properties of the code *)

(** ** Trimming and splitting *)

Section Trimming.

Lemma rev_append s1 s2 :
  String.rev (s1 +:+ s2) = String.rev s2 +:+ String.rev s1.
Proof.
  induction s1 as [|ch s1 IH].
  - by rewrite append_nil_l, append_nil_r.
  - by rewrite append_cons, !rev_cons, IH, append_assoc.
Qed.

Lemma ltrim_split s :
  ∃ l, string_forall isspace l = true ∧ s = l +:+ ltrim s.
Proof.
  induction s as [|ch s (l & Hl & Hs)]; [by exists ""|].
  simpl. destruct (isspace ch) eqn:Hch.
  - exists (String ch l). simpl. rewrite Hch, append_cons. by rewrite <- Hs.
  - by exists "".
Qed.

Lemma rtrim_split s :
  ∃ r, string_forall isspace r = true ∧ s = rtrim s +:+ r.
Proof.
  destruct (ltrim_split (String.rev s)) as (l & Hl & Hs).
  exists (String.rev l). split; [by rewrite string_forall_rev|].
  unfold rtrim. by rewrite <- rev_append, <- Hs, rev_involutive.
Qed.

Lemma edge_space_ltrim s : edge_space (ltrim s) = false.
Proof.
  induction s as [|ch s IH]; [done|].
  simpl. by destruct (isspace ch) eqn:Hch; [|simpl].
Qed.

Lemma ltrim_fixed s : edge_space s = false → ltrim s = s.
Proof. destruct s as [|ch s]; [done|]. simpl. by intros ->. Qed.

Lemma edge_space_rtrim s : edge_space s = false → edge_space (rtrim s) = false.
Proof.
  intros Hs. destruct (rtrim_split s) as (r & _ & Heq).
  destruct (rtrim s) as [|ch t]; [done|].
  rewrite append_cons in Heq. by rewrite Heq in Hs.
Qed.

Lemma trimmed_trim s : trimmed (trim s) = true.
Proof.
  unfold trimmed, trim.
  rewrite edge_space_rtrim by apply edge_space_ltrim.
  unfold rtrim. by rewrite rev_involutive, edge_space_ltrim.
Qed.

Lemma trim_fixed s : trimmed s = true → trim s = s.
Proof.
  unfold trimmed. intros [H1 H2]%andb_true_iff.
  apply negb_true_iff in H1, H2. unfold trim, rtrim.
  by rewrite (ltrim_fixed s), (ltrim_fixed (String.rev s)), rev_involutive.
Qed.

Lemma trim_split s :
  ∃ l r, string_forall isspace l = true ∧ string_forall isspace r = true ∧
         s = l +:+ trim s +:+ r.
Proof.
  destruct (ltrim_split s) as (l & Hl & Hs).
  destruct (rtrim_split (ltrim s)) as (r & Hr & Ht).
  exists l, r. split_and!; [done..|]. unfold trim. by rewrite <- Ht.
Qed.

Lemma string_forall_trim P s :
  string_forall P s = true → string_forall P (trim s) = true.
Proof.
  destruct (trim_split s) as (l & r & _ & _ & Heq). rewrite Heq at 1.
  rewrite !string_forall_app. by intros [_ [? _]%andb_true_iff]%andb_true_iff.
Qed.

Lemma stripBOM_split s : ∃ p, s = p +:+ stripBOM s.
Proof.
  destruct (decide (stripBOM s = s)) as [->|Hne]; [by exists ""|].
  destruct s as [|c1 s]; [done|].
  destruct c1 as [[] [] [] [] [] [] [] []]; try (exfalso; by apply Hne).
  destruct s as [|c2 s]; [exfalso; by apply Hne|].
  destruct c2 as [[] [] [] [] [] [] [] []]; try (exfalso; by apply Hne).
  destruct s as [|c3 s]; [exfalso; by apply Hne|].
  destruct c3 as [[] [] [] [] [] [] [] []]; try (exfalso; by apply Hne).
  by exists (String "239"%char (String "187"%char (String "191"%char ""))).
Qed.

Lemma string_forall_stripBOM P s :
  string_forall P s = true → string_forall P (stripBOM s) = true.
Proof.
  destruct (stripBOM_split s) as (p & Heq). rewrite Heq at 1.
  rewrite string_forall_app. by intros [_ ?]%andb_true_iff.
Qed.

End Trimming.

(** X1. [trim] removes spaces only, from both ends and as far as
    possible: the text is its trimmed form between two runs of space
    characters, the trimmed form neither starts nor ends with a space, and
    an already trimmed text is left unchanged (so trimming twice is
    trimming once). *)
Theorem trim_spec :
  (∀ s, ∃ l r,
     string_forall isspace l = true ∧ string_forall isspace r = true ∧
     s = l +:+ trim s +:+ r) ∧
  (∀ s, trimmed (trim s) = true) ∧
  (∀ s, trimmed s = true → trim s = s) ∧
  (∀ s, trim (trim s) = trim s).
Proof.
  split_and!.
  - apply trim_split.
  - apply trimmed_trim.
  - apply trim_fixed.
  - intros s. apply trim_fixed, trimmed_trim.
Qed.

Lemma trim_spec_witness :
  trimmed "a b" = true ∧ trim "a b" = "a b".
Proof.
  assert (trimmed "a b" = true) as Ht by reflexivity.
  split; [exact Ht|].
  exact (proj1 (proj2 (proj2 trim_spec)) "a b" Ht).
Defined.

Section Splitting.

Variable d : ascii.

Lemma concat_cons sep x (xs : list string) :
  xs ≠ [] → String.concat sep (x :: xs) = x +:+ sep +:+ String.concat sep xs.
Proof. by destruct xs. Qed.

Lemma getline_all_terminated_cons fo s :
  getline_all d fo (s +:+ String d "") ≠ [].
Proof.
  revert fo. induction s as [|ch s IH]; intros fo.
  - rewrite append_nil_l. simpl. by rewrite decide_True.
  - rewrite append_cons. simpl. case_decide; [done|apply IH].
Qed.

Lemma getline_all_terminated fo s :
  String.concat (String d "") (getline_all d fo (s +:+ String d "")) =
  String.rev (default "" fo) +:+ s.
Proof.
  revert fo. induction s as [|ch s IH]; intros fo.
  - rewrite append_nil_l, append_nil_r. simpl. by rewrite decide_True.
  - rewrite append_cons. simpl. case_decide as Hch.
    + subst ch. rewrite concat_cons by apply getline_all_terminated_cons.
      by rewrite IH.
    + rewrite IH. simpl. by rewrite rev_cons, append_assoc.
Qed.

Lemma getline_all_count fo s :
  length (getline_all d fo (s +:+ String d "")) = S (count_char d s).
Proof.
  revert fo. induction s as [|ch s IH]; intros fo.
  - rewrite append_nil_l. simpl. by rewrite decide_True.
  - rewrite append_cons. simpl. case_decide; simpl; by rewrite IH.
Qed.

Lemma rev_nonempty ch s : String.rev (String ch s) ≠ "".
Proof. rewrite rev_cons. by destruct (String.rev s). Qed.

Lemma ends_with_cons ch s :
  ends_with d (String ch s) =
  match s with
  | "" => bool_decide (ch = d)
  | _ => ends_with d s
  end.
Proof.
  destruct s as [|ch' s]; [done|].
  unfold ends_with. rewrite (rev_cons ch).
  pose proof (rev_nonempty ch' s) as Hne.
  by destruct (String.rev (String ch' s)).
Qed.

Lemma getline_all_final fo s :
  ends_with d s = false → s ≠ "" ∨ is_Some fo →
  getline_all d fo (s +:+ String d "") = getline_all d fo s.
Proof.
  revert fo. induction s as [|ch s IH]; intros fo Hend Hne.
  - destruct Hne as [?|[f ->]]; [done|].
    rewrite append_nil_l. simpl. by rewrite decide_True.
  - rewrite append_cons. simpl. rewrite ends_with_cons in Hend.
    case_decide as Hch.
    + subst ch. f_equal. destruct s as [|ch' s].
      * by rewrite bool_decide_eq_false in Hend.
      * apply IH; [done|by left].
    + destruct s as [|ch' s].
      * rewrite append_nil_l. simpl. by rewrite decide_True.
      * apply IH; [done|by left].
Qed.

Lemma free_of_rev s : free_of d (String.rev s) = free_of d s.
Proof. apply string_forall_rev. Qed.

Lemma getline_all_free fo s :
  free_of d (default "" fo) = true →
  Forall (λ f, free_of d f = true) (getline_all d fo s).
Proof.
  revert fo. induction s as [|ch s IH]; intros fo Hfo; simpl.
  - destruct fo as [f|]; [|done].
    apply Forall_singleton. by rewrite free_of_rev.
  - case_decide as Hch.
    + apply Forall_cons. split; [by rewrite free_of_rev|by apply IH].
    + apply IH. simpl. unfold free_of in *. simpl.
      by rewrite Hfo, bool_decide_eq_false_2.
Qed.

End Splitting.

(** X2. Reading a text with repeated [std::getline] is inverted by
    joining with the delimiter: a text that ends with the delimiter is the
    join of the fields read from it; a last field without delimiter is
    read as if the delimiter were there; the number of fields is the number
    of delimiters in the text; and no field holds the delimiter. *)
Theorem getline_all_spec (d : ascii) :
  (∀ s, String.concat (String d "") (getline_all d None (s +:+ String d "")) = s) ∧
  (∀ s, s ≠ "" → ends_with d s = false →
     getline_all d None s = getline_all d None (s +:+ String d "")) ∧
  (∀ s, length (getline_all d None (s +:+ String d "")) = S (count_char d s)) ∧
  (∀ s, Forall (λ f, free_of d f = true) (getline_all d None s)) ∧
  getline_all d None "" = [].
Proof.
  split_and!.
  - intros s. by rewrite getline_all_terminated.
  - intros s Hne Hend. symmetry. apply getline_all_final; [done|by left].
  - intros s. apply getline_all_count.
  - intros s. by apply getline_all_free.
  - done.
Qed.

Lemma getline_all_spec_witness :
  ("a,b" ≠ "" ∧ ends_with ","%char "a,b" = false) ∧
  getline_all ","%char None "a,b" = getline_all ","%char None ("a,b" +:+ ",").
Proof.
  assert ("a,b" ≠ "") as Hne by discriminate.
  assert (ends_with ","%char "a,b" = false) as Hend by reflexivity.
  split; [by split|].
  exact (proj1 (proj2 (getline_all_spec ","%char)) "a,b" Hne Hend).
Defined.

Lemma splitCSV_fields line :
  Forall (λ f, trimmed f = true ∧ free_of ","%char f = true) (splitCSV line).
Proof.
  unfold splitCSV. apply Forall_fmap.
  eapply Forall_impl; [apply (getline_all_free ","%char None line); done|].
  intros f Hf. simpl. split; [apply trimmed_trim|].
  by apply string_forall_trim, string_forall_stripBOM.
Qed.

(** X3. Every field that [splitCSV] returns is trimmed and holds no
    comma; a line gives one field more than it has commas, except that a
    comma at the very end of the line opens no field, and the empty line
    gives no field at all. *)
Theorem splitCSV_spec :
  (∀ line, Forall (λ f, trimmed f = true ∧ free_of ","%char f = true)
                  (splitCSV line)) ∧
  (∀ line, line ≠ "" → ends_with ","%char line = false →
     length (splitCSV line) = S (count_char ","%char line)) ∧
  (∀ line, length (splitCSV (line +:+ ",")) = S (count_char ","%char line)) ∧
  splitCSV "" = [].
Proof.
  split_and!.
  - apply splitCSV_fields.
  - intros line Hne Hend. unfold splitCSV. rewrite length_fmap.
    rewrite <- (getline_all_final ","%char None line) by (done || by left).
    apply getline_all_count.
  - intros line. unfold splitCSV. rewrite length_fmap.
    apply getline_all_count.
  - done.
Qed.

Lemma splitCSV_spec_witness :
  ("CSCI101, Intro ,CSCI100" ≠ "" ∧
   ends_with ","%char "CSCI101, Intro ,CSCI100" = false) ∧
  length (splitCSV "CSCI101, Intro ,CSCI100") =
    S (count_char ","%char "CSCI101, Intro ,CSCI100").
Proof.
  assert ("CSCI101, Intro ,CSCI100" ≠ "") as Hne by discriminate.
  assert (ends_with ","%char "CSCI101, Intro ,CSCI100" = false) as Hend
    by reflexivity.
  split; [by split|].
  exact (proj1 (proj2 splitCSV_spec) "CSCI101, Intro ,CSCI100" Hne Hend).
Defined.

(** ** The normalizer as a filter *)

Lemma keep_alnum_upper_empty s :
  keep_alnum_upper s = "" ↔ string_forall (λ ch, negb (isalnum ch)) s = true.
Proof.
  induction s as [|ch s IH]; [done|]. simpl.
  destruct (isalnum ch); simpl; [|done]. by split.
Qed.

(** X4. [canonCode] is its filter loop alone: removing the BOM and
    trimming first changes nothing, the code of a concatenation is the
    concatenation of the codes, and the code is empty exactly when the
    text holds no letter and no digit. *)
Theorem canonCode_filter_spec :
  (∀ s, canonCode (stripBOM s) = canonCode s ∧ canonCode (trim s) = canonCode s) ∧
  (∀ s1 s2, canonCode (s1 +:+ s2) = canonCode s1 +:+ canonCode s2) ∧
  (∀ s, canonCode s = "" ↔ string_forall (λ ch, negb (isalnum ch)) s = true).
Proof.
  split_and!.
  - intros s. rewrite !canonCode_filter.
    by rewrite keep_alnum_upper_stripBOM, keep_alnum_upper_trim.
  - intros s1 s2. rewrite !canonCode_filter. apply keep_alnum_upper_app.
  - intros s. rewrite canonCode_filter. apply keep_alnum_upper_empty.
Qed.

(** ** What the loaders store *)

Section Records.

Lemma addPrereq_list (c : Course) (ps : list string) :
  foldl Enhanced.addPrereq c ps =
  {| number := number c; title := title c;
     prereqs := prereqs c ++ filter (λ p, p ≠ "") (canonCode <$> ps) |}.
Proof.
  revert c. induction ps as [|p ps IH]; intros c.
  { simpl. rewrite app_nil_r. by destruct c. }
  cbn [foldl]. rewrite IH, fmap_cons, filter_cons.
  unfold Enhanced.addPrereq. repeat case_decide; try done; simpl.
  by rewrite <- app_assoc.
Qed.

Lemma record_of_Some line c :
  record_of line = Some c →
  comment_or_blank (trim (stripBOM line)) = false ∧
  ∃ f0 f1 rest,
    splitCSV line = f0 :: f1 :: rest ∧
    c = {| number := canonCode f0; title := f1;
           prereqs := filter (λ p, p ≠ "") (canonCode <$> rest) |}.
Proof.
  unfold record_of. destruct (comment_or_blank _); [done|].
  destruct (splitCSV line) as [|f0 [|f1 rest]] eqn:Hsplit; try done.
  intros [= <-]. split; [done|]. exists f0, f1, rest.
  split; [done|]. by rewrite addPrereq_list.
Qed.

Lemma enhanced_load_line_record (catalog : Catalog) line :
  Enhanced.load_line catalog line =
  match record_of line with
  | Some c => <[number c := c]> catalog
  | None => catalog
  end.
Proof.
  unfold Enhanced.load_line, record_of.
  destruct (comment_or_blank _); [done|].
  by destruct (splitCSV line) as [|f0 [|f1 rest]].
Qed.

Lemma original_load_line_record st line :
  Original.ls_catalog (Original.load_line st line) =
  match record_of line with
  | Some c =>
      if decide (number c = "") then Original.ls_catalog st
      else <[number c := c]> (Original.ls_catalog st)
  | None => Original.ls_catalog st
  end.
Proof.
  unfold Original.load_line, record_of.
  destruct (comment_or_blank _); [done|].
  destruct (splitCSV line) as [|f0 [|f1 rest]]; try done.
  rewrite addPrereq_list. cbn [number Enhanced.newCourse title prereqs app].
  by case_decide.
Qed.

Lemma record_of_well_formed line c : record_of line = Some c → well_formed c.
Proof.
  intros (_ & f0 & f1 & rest & Hsplit & ->)%record_of_Some.
  unfold well_formed. cbn [prereqs title]. split.
  - apply Forall_forall. intros p [Hp Hin]%list_elem_of_filter.
    apply list_elem_of_fmap in Hin as (q & -> & _).
    split_and!; [done|apply canonCode_normalized|].
    apply canonCode_fixed, canonCode_normalized.
  - pose proof (splitCSV_fields line) as Hall.
    rewrite Hsplit in Hall.
    apply Forall_cons in Hall as [_ [Hf1 _]%Forall_cons]. done.
Qed.

Lemma enhanced_fold_well_formed lines (catalog : Catalog) :
  map_Forall (λ _ c, well_formed c) catalog →
  map_Forall (λ _ c, well_formed c) (foldl Enhanced.load_line catalog lines).
Proof.
  revert catalog. induction lines as [|line lines IH]; intros catalog Hcat; [done|].
  cbn [foldl]. apply IH. rewrite enhanced_load_line_record.
  destruct (record_of line) as [c|] eqn:Hrec; [|done].
  apply map_Forall_insert_2; [|done]. by eapply record_of_well_formed.
Qed.

(** The two loaders differ by the entry of the empty code only. *)
Lemma original_enhanced_fold lines st (catalog : Catalog) :
  Original.ls_catalog st = delete "" catalog →
  Original.ls_catalog (foldl Original.load_line st lines) =
  delete "" (foldl Enhanced.load_line catalog lines).
Proof.
  revert st catalog. induction lines as [|line lines IH]; intros st catalog Hst;
    [done|].
  cbn [foldl]. apply IH.
  rewrite original_load_line_record, enhanced_load_line_record.
  destruct (record_of line) as [c|]; [|done]. case_decide as Hc.
  - by rewrite Hc, delete_insert_eq.
  - by rewrite delete_insert_ne, Hst.
Qed.

Lemma original_enhanced_catalog lines :
  Original.ls_catalog (Original.load_lines lines) =
  delete "" (Enhanced.load_lines lines).
Proof. apply original_enhanced_fold. by rewrite delete_empty. Qed.

(** Lines whose records have other codes leave the entry of [k] alone. *)
Lemma enhanced_fold_other lines (catalog : Catalog) k :
  (∀ l c, l ∈ lines → record_of l = Some c → number c ≠ k) →
  foldl Enhanced.load_line catalog lines !! k = catalog !! k.
Proof.
  revert catalog. induction lines as [|line lines IH]; intros catalog Hk; [done|].
  cbn [foldl]. rewrite IH.
  - rewrite enhanced_load_line_record.
    destruct (record_of line) as [c|] eqn:Hrec; [|done].
    rewrite lookup_insert_ne; [done|].
    apply (Hk line c); [apply list_elem_of_here|done].
  - intros l c Hl. apply Hk. by apply list_elem_of_further.
Qed.

Lemma enhanced_fold_lookup lines (catalog : Catalog) k c :
  foldl Enhanced.load_line catalog lines !! k = Some c →
  catalog !! k = Some c ∨
  ∃ line, line ∈ lines ∧ record_of line = Some c ∧ number c = k.
Proof.
  revert catalog. induction lines as [|line lines IH]; intros catalog Hk;
    [by left|].
  cbn [foldl] in Hk. apply IH in Hk as [Hk|(l & Hl & Hrec & Hnum)].
  - rewrite enhanced_load_line_record in Hk.
    destruct (record_of line) as [c'|] eqn:Hrec; [|by left].
    apply lookup_insert_Some in Hk as [[<- <-]|[_ Hk]]; [|by left].
    right. exists line. split; [apply list_elem_of_here|done].
  - right. exists l. split; [by apply list_elem_of_further|done].
Qed.

Lemma enhanced_last_record pre line post c :
  record_of line = Some c →
  (∀ l c', l ∈ post → record_of l = Some c' → number c' ≠ number c) →
  Enhanced.load_lines (pre ++ line :: post) !! number c = Some c.
Proof.
  intros Hrec Hpost. unfold Enhanced.load_lines.
  rewrite foldl_app. cbn [foldl]. rewrite enhanced_fold_other by done.
  rewrite enhanced_load_line_record, Hrec. apply lookup_insert_eq.
Qed.

Lemma record_codes_app l1 l2 :
  record_codes (l1 ++ l2) = record_codes l1 ++ record_codes l2.
Proof. apply omap_app. Qed.

Lemma elem_of_record_codes lines k :
  k ∈ record_codes lines ↔
  ∃ line c, line ∈ lines ∧ record_of line = Some c ∧ number c = k.
Proof.
  unfold record_codes. rewrite list_elem_of_omap. split.
  - intros (line & Hl & Hk). destruct (record_of line) as [c|] eqn:Hrec; [|done].
    simpl in Hk. exists line, c. by simplify_eq.
  - intros (line & c & Hl & Hrec & <-). exists line. by rewrite Hrec.
Qed.

(** With pairwise distinct codes, the catalog holds exactly the records. *)
Lemma enhanced_unique_lookup lines k c :
  NoDup (record_codes lines) →
  Enhanced.load_lines lines !! k = Some c ↔
  ∃ line, line ∈ lines ∧ record_of line = Some c ∧ number c = k.
Proof.
  intros Hnd. split.
  - intros [Hk|?]%enhanced_fold_lookup; [|done]. by rewrite lookup_empty in Hk.
  - intros (line & (pre & post & ->)%list_elem_of_split & Hrec & <-).
    apply enhanced_last_record; [done|].
    intros l c' Hl Hrec' Heq.
    rewrite record_codes_app in Hnd. apply NoDup_app in Hnd as (_ & _ & Hnd).
    unfold record_codes in Hnd. cbn [omap list_omap] in Hnd.
    rewrite Hrec in Hnd. simpl in Hnd. apply NoDup_cons in Hnd as [Hnot _].
    apply Hnot. apply elem_of_record_codes. by exists l, c'.
Qed.

Lemma enhanced_load_dom lines :
  dom (Enhanced.load_lines lines) = list_to_set (record_codes lines).
Proof.
  apply set_eq. intros k.
  rewrite elem_of_dom, elem_of_list_to_set, elem_of_record_codes. split.
  - intros [c [Hk|(line & ? & ? & ?)]%enhanced_fold_lookup].
    + by rewrite lookup_empty in Hk.
    + by exists line, c.
  - intros (line & c & (pre & post & ->)%list_elem_of_split & Hrec & <-).
    unfold Enhanced.load_lines. rewrite foldl_app. cbn [foldl].
    assert (∀ ls (m : Catalog) k, is_Some (m !! k) →
      is_Some (foldl Enhanced.load_line m ls !! k)) as Hkeep.
    { induction ls as [|l ls IH]; intros m k Hm; [done|].
      cbn [foldl]. apply IH. rewrite enhanced_load_line_record.
      destruct (record_of l) as [c'|]; [|done].
      destruct (decide (number c' = k)) as [->|].
      - rewrite lookup_insert_eq. by eexists.
      - by rewrite lookup_insert_ne. }
    apply Hkeep. rewrite enhanced_load_line_record, Hrec, lookup_insert_eq.
    by eexists.
Qed.

Lemma size_list_to_set_le (l : list string) :
  size (list_to_set l : gset string) ≤ length l.
Proof.
  unfold size, set_size. simpl.
  apply submseteq_length, NoDup_submseteq; [apply NoDup_elements|].
  intros x Hx. by apply elem_of_elements, elem_of_list_to_set in Hx.
Qed.

Lemma length_record_codes lines : length (record_codes lines) ≤ length lines.
Proof.
  unfold record_codes. induction lines as [|line lines IH]; [done|].
  cbn [omap list_omap]. destruct (number <$> record_of line); simpl; lia.
Qed.

End Records.

(** X5. Whatever the file, every course in the catalog of either loader
    has prerequisites that are non-empty codes in normal form (upper-case
    letters and digits, fixed by the normalizer) and a title that is
    trimmed and holds no comma. *)
Theorem loaded_courses_well_formed lines k c :
  Original.ls_catalog (Original.load_lines lines) !! k = Some c ∨
  Enhanced.load_lines lines !! k = Some c →
  well_formed c.
Proof.
  assert (∀ k c, Enhanced.load_lines lines !! k = Some c → well_formed c) as He.
  { intros k' c' Hk.
    by apply (enhanced_fold_well_formed lines ∅ (map_Forall_empty _) k' c'). }
  intros [Hk|Hk]; [|by eapply He].
  rewrite original_enhanced_catalog in Hk.
  apply lookup_delete_Some in Hk as [_ Hk]. by eapply He.
Qed.

(** X6. The last record of a code wins: when a line is a record and no
    later line is a record with the same code, the catalog maps that code
    to the course of that line, whatever came before (in the original
    loader provided the code is not empty). *)
Theorem last_record_wins pre line post c :
  record_of line = Some c →
  (∀ l c', l ∈ post → record_of l = Some c' → number c' ≠ number c) →
  Enhanced.load_lines (pre ++ line :: post) !! number c = Some c ∧
  (number c ≠ "" →
   Original.ls_catalog (Original.load_lines (pre ++ line :: post)) !! number c
     = Some c).
Proof.
  intros Hrec Hpost.
  pose proof (enhanced_last_record pre line post c Hrec Hpost) as He.
  split; [done|]. intros Hne.
  rewrite original_enhanced_catalog. by rewrite lookup_delete_ne.
Qed.

(** X7. The catalog depends on the records only: lines that are not
    records (blank lines, comments, lines with a single field) can be
    dropped, and when the codes of the records are pairwise distinct the
    lines can be put in any order, without changing the catalog that
    either loader builds. *)
Theorem load_order_independent :
  (∀ lines,
     Enhanced.load_lines (filter (λ l, is_Some (record_of l)) lines) =
       Enhanced.load_lines lines ∧
     Original.ls_catalog
       (Original.load_lines (filter (λ l, is_Some (record_of l)) lines)) =
       Original.ls_catalog (Original.load_lines lines)) ∧
  (∀ lines lines',
     NoDup (record_codes lines) → lines ≡ₚ lines' →
     Enhanced.load_lines lines = Enhanced.load_lines lines' ∧
     Original.ls_catalog (Original.load_lines lines) =
       Original.ls_catalog (Original.load_lines lines')).
Proof.
  split.
  - intros lines.
    assert (Enhanced.load_lines (filter (λ l, is_Some (record_of l)) lines) =
            Enhanced.load_lines lines) as He.
    { unfold Enhanced.load_lines. generalize (∅ : Catalog).
      induction lines as [|line lines IH]; intros m; [done|].
      rewrite filter_cons. cbn [foldl]. case_decide as Hrec.
      - cbn [foldl]. apply IH.
      - rewrite IH. f_equal. rewrite enhanced_load_line_record.
        destruct (record_of line); [|done]. exfalso. apply Hrec. by eexists. }
    split; [done|]. by rewrite !original_enhanced_catalog, He.
  - intros lines lines' Hnd Hperm.
    assert (Enhanced.load_lines lines = Enhanced.load_lines lines') as He.
    { apply map_eq. intros k. apply option_eq. intros c.
      rewrite !enhanced_unique_lookup; [|unfold record_codes; by rewrite <- Hperm|done].
      by setoid_rewrite Hperm. }
    split; [done|]. by rewrite !original_enhanced_catalog, He.
Qed.

(** X8. The two loaders build the same catalog, up to the entry of the
    empty code that only the enhanced loader can store. *)
Theorem original_is_enhanced_without_empty_code (fs : FileSystem) filename
    (catalog : Catalog) :
  (Original.loadCourses fs filename catalog).1.1 =
    (Enhanced.loadCourses fs filename catalog).1 ∧
  (is_Some (fs filename) →
   (Original.loadCourses fs filename catalog).1.2 =
     delete "" (Enhanced.loadCourses fs filename catalog).2).
Proof.
  unfold Original.loadCourses, Enhanced.loadCourses.
  destruct (fs filename) as [content|]; cbn [fst snd].
  - split; [done|]. intros _. apply original_enhanced_catalog.
  - split; [done|]. by intros [? [=]].
Qed.

(** X9. The keys of the loaded catalog are exactly the codes of the
    records of the file; so the count that the menu prints after a load is
    at most the number of records, and equals it when no code is
    repeated. *)
Theorem loaded_count lines :
  dom (Enhanced.load_lines lines) = list_to_set (record_codes lines) ∧
  size (Enhanced.load_lines lines) ≤ length (record_codes lines) ∧
  length (record_codes lines) ≤ length lines ∧
  (NoDup (record_codes lines) →
   size (Enhanced.load_lines lines) = length (record_codes lines)).
Proof.
  pose proof (enhanced_load_dom lines) as Hdom.
  assert (size (Enhanced.load_lines lines) =
          size (list_to_set (record_codes lines) : gset string)) as Hsize.
  { by rewrite <- Hdom, size_dom. }
  split_and!; [done| | |].
  - rewrite Hsize. apply size_list_to_set_le.
  - apply length_record_codes.
  - intros Hnd. rewrite Hsize. by apply size_list_to_set.
Qed.

(** ** The sorted listing and the detail query *)

Section Listing.

Variable iter : ∀ V : Type, gmap string V → list (string * V).
Hypothesis iter_ok : valid_iter iter.
Variable catalog : Catalog.

Lemma sort_keys_perm (l1 l2 : list string) :
  l1 ≡ₚ l2 → sort_keys l1 = sort_keys l2.
Proof.
  intros Hl. unfold sort_keys.
  apply (Sorted_unique String.le); [apply Sorted_merge_sort, _..|].
  by rewrite !merge_sort_Permutation.
Qed.

Lemma listing_keys :
  let keys := sort_keys ((iter Course catalog).*1) in
  keys = sort_keys ((map_to_list catalog).*1) ∧
  StronglySorted String.le keys ∧ NoDup keys ∧
  (∀ k, k ∈ keys ↔ is_Some (catalog !! k)).
Proof.
  intros keys. subst keys.
  assert (sort_keys (iter Course catalog).*1 ≡ₚ (iter Course catalog).*1)
    as Hperm by apply merge_sort_Permutation.
  split_and!.
  - apply sort_keys_perm. by rewrite (iter_ok Course catalog).
  - apply (StronglySorted_merge_sort String.le).
  - rewrite Hperm. by apply iter_NoDup.
  - intros k. rewrite Hperm. by apply elem_of_iter_keys.
Qed.

Lemma listing_courses (keys : list string) :
  (∀ k, k ∈ keys → is_Some (catalog !! k)) →
  ∃ cs, mapM (λ k, catalog !! k) keys = Some cs ∧
        Forall2 (λ k c, catalog !! k = Some c) keys cs.
Proof.
  intros Hkeys.
  destruct (mapM_is_Some_2 (λ k, catalog !! k) keys) as [cs Hcs].
  { apply Forall_forall. intros k Hk. by apply Hkeys. }
  exists cs. split; [done|]. by apply mapM_Some_1.
Qed.

End Listing.

(** X10. On a catalog that is not empty, the course list of both
    programs returns (no [at] throws) and prints, after its header, one
    row per catalog key, each key once, in ascending order of the codes;
    the listing does not depend on the order in which the hash map is
    traversed. *)
Theorem printCourseList_sorted iter iter' (catalog : Catalog) :
  valid_iter iter → valid_iter iter' → catalog ≠ ∅ →
  ∃ keys cs,
    StronglySorted String.le keys ∧ NoDup keys ∧
    (∀ k, k ∈ keys ↔ is_Some (catalog !! k)) ∧
    Forall2 (λ k c, catalog !! k = Some c) keys cs ∧
    Enhanced.printCourseList iter catalog =
      Returns ("Course List:" +:+ nl
                 +:+ String.concat "" (Enhanced.course_row <$> cs)) ∧
    Original.printCourseList iter catalog =
      Returns ("Here is a sample schedule:" +:+ nl
                 +:+ String.concat "" (Original.course_row <$> cs)) ∧
    Enhanced.printCourseList iter' catalog = Enhanced.printCourseList iter catalog ∧
    Original.printCourseList iter' catalog = Original.printCourseList iter catalog.
Proof.
  intros Hiter Hiter' Hne.
  destruct (listing_keys iter Hiter catalog) as (Hk & Hsorted & Hnd & Hin).
  destruct (listing_keys iter' Hiter' catalog) as (Hk' & _).
  destruct (listing_courses catalog (sort_keys (iter Course catalog).*1))
    as (cs & Hcs & Hall).
  { intros k. apply Hin. }
  exists (sort_keys (iter Course catalog).*1), cs.
  unfold Enhanced.printCourseList, Original.printCourseList.
  rewrite !decide_False by done. rewrite Hk', <- Hk, Hcs. done.
Qed.

(** X11. The detail query looks the course up under the normalized
    query: two queries that differ in letter case only, or by a space
    character, get the same answer from the enhanced program, and from the
    original program when the course is found (its not-found message
    repeats the query as typed). *)
Theorem printSingleCourse_insensitive (catalog : Catalog) :
  (∀ q1 q2, upcase q1 = upcase q2 →
     Enhanced.printSingleCourse catalog q1 = Enhanced.printSingleCourse catalog q2 ∧
     (is_Some (catalog !! canonCode q1) →
      Original.printSingleCourse catalog q1 =
        Original.printSingleCourse catalog q2)) ∧
  (∀ s1 ch s2, isspace ch = true →
     Enhanced.printSingleCourse catalog (s1 +:+ String ch s2) =
       Enhanced.printSingleCourse catalog (s1 +:+ s2) ∧
     (is_Some (catalog !! canonCode (s1 +:+ s2)) →
      Original.printSingleCourse catalog (s1 +:+ String ch s2) =
        Original.printSingleCourse catalog (s1 +:+ s2))).
Proof.
  assert (∀ q1 q2, canonCode q1 = canonCode q2 →
    Enhanced.printSingleCourse catalog q1 = Enhanced.printSingleCourse catalog q2 ∧
    (is_Some (catalog !! canonCode q1) →
     Original.printSingleCourse catalog q1 =
       Original.printSingleCourse catalog q2)) as Hcode.
  { intros q1 q2 Heq.
    unfold Enhanced.printSingleCourse, Original.printSingleCourse.
    rewrite Heq. split; [done|]. intros [c Hc]. by rewrite Hc. }
  split.
  - intros q1 q2 Hcase. apply Hcode. rewrite !canonCode_filter.
    by rewrite <- (keep_alnum_upper_upcase q1), Hcase, keep_alnum_upper_upcase.
  - intros s1 ch s2 Hch.
    assert (canonCode (s1 +:+ String ch s2) = canonCode (s1 +:+ s2)) as Heq.
    { rewrite !canonCode_filter, !keep_alnum_upper_app. simpl.
      by rewrite (isspace_not_alnum ch Hch). }
    destruct (Hcode _ _ Heq) as [He Ho]. split; [done|].
    intros Hfound. apply Ho. by rewrite Heq.
Qed.

(** ** Which courses the sorter outputs *)

Section Completeness.

Variable catalog : Catalog.
Variable st : Enhanced.SortState.
Hypothesis st_inv : kahn_inv catalog st.
Hypothesis st_final : Enhanced.zero st = ∅.

(** When the loop has ended, a course that is not in the output still
    waits for a prerequisite that is not in the output either. *)
Lemma unsorted_prereq x :
  is_Some (catalog !! x) → x ∉ Enhanced.order st →
  ∃ p, prereq_edge catalog p x ∧ p ∉ Enhanced.order st.
Proof.
  intros [c Hc] Hx.
  assert (remaining catalog (Enhanced.order st) c ≠ 0%Z) as Hrem.
  { intros Hz. apply (inv_ready _ _ st_inv x c Hc) in Hz as [Hz|Hz]; [|done].
    rewrite st_final in Hz. by apply elem_of_empty in Hz. }
  unfold remaining in Hrem.
  destruct (filter (λ p, is_Some (catalog !! p) ∧ p ∉ Enhanced.order st)
              (prereqs c)) as [|p ps] eqn:Hfilter; [done|].
  assert (p ∈ filter (λ p, is_Some (catalog !! p) ∧ p ∉ Enhanced.order st)
                (prereqs c)) as Hp by (rewrite Hfilter; apply list_elem_of_here).
  apply list_elem_of_filter in Hp as [[Hcat Hnot] Hin].
  exists p. split; [by exists c|done].
Qed.

(** Walking back from such a course along prerequisites that are not in
    the output, one must come back to a course already visited. *)
Lemma unsorted_walk n (V : gset string) x :
  size (dom catalog ∖ V) ≤ n →
  x ∈ V → is_Some (catalog !! x) → x ∉ Enhanced.order st →
  (∀ v, v ∈ V → rtc (prereq_edge catalog) x v) →
  ∃ y, tc (prereq_edge catalog) y y ∧ rtc (prereq_edge catalog) y x.
Proof.
  revert V x. induction n as [|n IH]; intros V x Hsize HxV Hx Hxo Hreach;
    destruct (unsorted_prereq x Hx Hxo) as (p & Hedge & Hpo);
    assert (is_Some (catalog !! p)) as Hp
      by (by destruct Hedge as (? & _ & _ & ?));
    destruct (decide (p ∈ V)) as [HpV|HpV].
  - exists p. split; [|by apply rtc_once].
    eapply tc_rtc_r; [by apply tc_once|by apply Hreach].
  - exfalso. assert (p ∈ dom catalog ∖ V) as Hin.
    { apply elem_of_difference. split; [by apply elem_of_dom|done]. }
    assert (dom catalog ∖ V = ∅) as Hempty
      by (apply leibniz_equiv, size_empty_inv; lia).
    rewrite Hempty in Hin. by apply elem_of_empty in Hin.
  - exists p. split; [|by apply rtc_once].
    eapply tc_rtc_r; [by apply tc_once|by apply Hreach].
  - destruct (IH ({[p]} ∪ V) p) as (y & Hcycle & Hyp).
    + assert (dom catalog ∖ ({[p]} ∪ V) ⊂ dom catalog ∖ V) as Hsub.
      { split.
        - intros z [Hz1 Hz2]%elem_of_difference. apply elem_of_difference.
          split; [done|]. intros Hz. apply Hz2, elem_of_union. by right.
        - intros Hsub.
          assert (p ∈ dom catalog ∖ V) as Hin.
          { apply elem_of_difference. split; [by apply elem_of_dom|done]. }
          apply Hsub, elem_of_difference in Hin as [_ Hin].
          apply Hin, elem_of_union. left. by apply elem_of_singleton. }
      apply subset_size in Hsub. lia.
    + apply elem_of_union. left. by apply elem_of_singleton.
    + done.
    + done.
    + intros v [->%elem_of_singleton|Hv]%elem_of_union; [done|].
      eapply rtc_l; [exact Hedge|by apply Hreach].
    + exists y. split; [done|]. eapply rtc_r; [exact Hyp|exact Hedge].
Qed.

Lemma unsorted_cycle x :
  is_Some (catalog !! x) → x ∉ Enhanced.order st →
  ∃ y, tc (prereq_edge catalog) y y ∧ rtc (prereq_edge catalog) y x.
Proof.
  intros Hx Hxo.
  apply (unsorted_walk (size (dom catalog ∖ {[x]})) {[x]} x);
    [done|by apply elem_of_singleton|done|done|].
  by intros v ->%elem_of_singleton.
Qed.

(** An output course has all its ancestors in the output. *)
Lemma sorted_ancestors y x :
  rtc (prereq_edge catalog) y x → x ∈ Enhanced.order st → y ∈ Enhanced.order st.
Proof.
  intros Hyx. induction Hyx as [x|y y' x Hedge _ IH]; [done|].
  intros [i Hi]%IH%list_elem_of_lookup.
  destruct (inv_topo _ _ st_inv i y' y Hi Hedge) as (j & _ & Hj).
  by eapply list_elem_of_lookup_2.
Qed.

Lemma sorted_iff x :
  x ∈ Enhanced.order st ↔
  is_Some (catalog !! x) ∧
  ¬ ∃ y, tc (prereq_edge catalog) y y ∧ rtc (prereq_edge catalog) y x.
Proof.
  split.
  - intros Hx. split; [by apply (inv_order_keys _ _ st_inv)|].
    intros (y & Hcycle & Hyx).
    apply (cycle_not_sorted catalog _ y (inv_topo _ _ st_inv) Hcycle).
    by apply (sorted_ancestors y x).
  - intros [Hx Hnone]. destruct (decide (x ∈ Enhanced.order st)); [done|].
    exfalso. apply Hnone. by apply unsorted_cycle.
Qed.

Lemma sorted_all :
  (∀ y, ¬ tc (prereq_edge catalog) y y) →
  Enhanced.order st ≡ₚ (map_to_list catalog).*1.
Proof.
  intros Hacyclic. apply NoDup_Permutation.
  - apply (inv_nodup _ _ st_inv).
  - apply NoDup_fst_map_to_list.
  - intros x. rewrite sorted_iff, list_elem_of_fmap. split.
    + intros [[c Hc] _]. exists (x, c). split; [done|].
      by apply elem_of_map_to_list.
    + intros [[k c] [-> Hin%elem_of_map_to_list]]. simpl.
      split; [by eexists|]. intros (y & Hy & _). by apply (Hacyclic y).
Qed.

Lemma short_cycle :
  length (Enhanced.order st) ≠ size catalog →
  ∃ y, tc (prereq_edge catalog) y y.
Proof.
  intros Hlen.
  destruct (decide (Forall (λ k, k ∈ Enhanced.order st) (map_to_list catalog).*1))
    as [Hall|Hsome].
  - exfalso. apply Hlen.
    rewrite <- length_map_to_list, <- (length_fmap fst).
    apply Permutation_length, NoDup_Permutation.
    + apply (inv_nodup _ _ st_inv).
    + apply NoDup_fst_map_to_list.
    + intros x. split.
      * intros [c Hc]%(inv_order_keys _ _ st_inv). apply list_elem_of_fmap.
        exists (x, c). split; [done|]. by apply elem_of_map_to_list.
      * intros Hx. by apply (proj1 (Forall_forall _ _) Hall).
  - apply not_Forall_Exists in Hsome; [|apply _].
    apply Exists_exists in Hsome as (x & Hx & Hnot).
    apply list_elem_of_fmap in Hx as ([k c] & -> & Hin%elem_of_map_to_list).
    destruct (unsorted_cycle k) as (y & Hy & _); [by eexists|done|].
    by exists y.
Qed.

End Completeness.

Lemma printRecommendedOrder_shape iter (catalog : Catalog) st :
  Enhanced.recommendedOrder iter catalog = Some (Enhanced.order st) →
  kahn_inv catalog st → catalog ≠ ∅ →
  ∃ rows,
    Enhanced.order_rows catalog (Enhanced.order st) = Some rows ∧
    Enhanced.printRecommendedOrder iter catalog =
      Returns ("Recommended Course Order:" +:+ nl +:+ rows +:+
               (if decide (length (Enhanced.order st) ≠ size catalog)
                then Enhanced.msg_cycle else "")).
Proof.
  intros Hst Hinv Hne.
  destruct (order_rows_is_Some catalog (Enhanced.order st)
              (inv_order_keys _ _ Hinv)) as [rows Hrows].
  exists rows. split; [done|]. unfold Enhanced.printRecommendedOrder.
  by rewrite decide_False, Hst, Hrows.
Qed.


(** X13. The order lists every course exactly when the catalog has no
    prerequisite cycle: without a cycle it is a permutation of the catalog
    keys and the report ends after its rows, with no warning; and an order
    shorter than the catalog, the condition of the warning, only happens
    when some course is on a cycle. *)
Theorem recommendedOrder_complete iter (catalog : Catalog) :
  valid_iter iter →
  ∃ order,
    Enhanced.recommendedOrder iter catalog = Some order ∧
    ((∀ y, ¬ tc (prereq_edge catalog) y y) →
       order ≡ₚ (map_to_list catalog).*1 ∧
       length order = size catalog ∧
       (catalog ≠ ∅ →
        ∃ rows, Enhanced.order_rows catalog order = Some rows ∧
          Enhanced.printRecommendedOrder iter catalog =
            Returns ("Recommended Course Order:" +:+ nl +:+ rows))) ∧
    (length order ≠ size catalog ↔ ∃ y, tc (prereq_edge catalog) y y).
Proof.
  intros Hiter.
  destruct (recommendedOrder_returns iter Hiter catalog) as (st & Hst & Hinv & Hz).
  exists (Enhanced.order st). split_and!; [done| |].
  - intros Hacyclic.
    pose proof (sorted_all catalog st Hinv Hz Hacyclic) as Hperm.
    assert (length (Enhanced.order st) = size catalog) as Hlen.
    { by rewrite Hperm, length_fmap, length_map_to_list. }
    split_and!; [done..|]. intros Hne.
    destruct (printRecommendedOrder_shape iter catalog st Hst Hinv Hne)
      as (rows & Hrows & Hprint).
    exists rows. split; [done|]. rewrite Hprint.
    rewrite decide_False by lia. by rewrite append_nil_r.
  - split; [by apply short_cycle|].
    intros [y Hy].
    pose proof (keys_length_missing catalog _ y (inv_nodup _ _ Hinv)
      (inv_order_keys _ _ Hinv) (cycle_in_catalog catalog y Hy)
      (cycle_not_sorted catalog _ y (inv_topo _ _ Hinv) Hy)). lia.
Qed.

(** ** Sessions *)

Section Reports.

Variable iter : ∀ V : Type, gmap string V → list (string * V).
Hypothesis iter_ok : valid_iter iter.
Variable catalog : Catalog.

Lemma enhanced_printCourseList_returns :
  ∃ out, Enhanced.printCourseList iter catalog = Returns out.
Proof.
  unfold Enhanced.printCourseList. case_decide; [by eexists|].
  destruct (listing_keys iter iter_ok catalog) as (_ & _ & _ & Hin).
  destruct (listing_courses catalog (sort_keys (iter Course catalog).*1))
    as (cs & -> & _); [intros k; apply Hin|]. by eexists.
Qed.

Lemma original_printCourseList_returns :
  ∃ out, Original.printCourseList iter catalog = Returns out.
Proof.
  unfold Original.printCourseList. case_decide; [by eexists|].
  destruct (listing_keys iter iter_ok catalog) as (_ & _ & _ & Hin).
  destruct (listing_courses catalog (sort_keys (iter Course catalog).*1))
    as (cs & -> & _); [intros k; apply Hin|]. by eexists.
Qed.

Lemma printRecommendedOrder_returns :
  ∃ out, Enhanced.printRecommendedOrder iter catalog = Returns out.
Proof.
  destruct (decide (catalog = ∅)) as [->|Hne].
  - unfold Enhanced.printRecommendedOrder. rewrite decide_True by done.
    by eexists.
  - destruct (recommendedOrder_returns iter iter_ok catalog) as (st & Hst & Hinv & _).
    destruct (printRecommendedOrder_shape iter catalog st Hst Hinv Hne)
      as (rows & _ & ->). by eexists.
Qed.

End Reports.

Section EnhancedSession.

Variable iter : ∀ V : Type, gmap string V → list (string * V).
Hypothesis iter_ok : valid_iter iter.
Variable fs : FileSystem.
Variable db_ok : bool.

(** A property of the catalog that every load keeps. *)
Variable P : Catalog → Prop.
Hypothesis P_load : ∀ line (catalog : Catalog),
  P catalog → P (Enhanced.choice_load fs line catalog).2.

Lemma enhanced_main_loop_inv n inputs con :
  length inputs ≤ n → P (con_catalog con) →
  (EnhancedMain.main_loop iter fs db_ok inputs con).1 ≠ Aborted ∧
  P (con_catalog (EnhancedMain.main_loop iter fs db_ok inputs con).2) ∧
  ((EnhancedMain.main_loop iter fs db_ok inputs con).1 = Exited →
   ∃ line, line ∈ inputs ∧ trim line = "9").
Proof.
  revert inputs con. induction n as [|n IH]; intros inputs con Hlen HP;
    destruct inputs as [|line rest]; simpl in Hlen; try lia;
    try (by split_and!).
  assert (∀ rest' con',
    length rest' ≤ n → P (con_catalog con') → (∀ l, l ∈ rest' → l ∈ line :: rest) →
    (EnhancedMain.main_loop iter fs db_ok rest' con').1 ≠ Aborted ∧
    P (con_catalog (EnhancedMain.main_loop iter fs db_ok rest' con').2) ∧
    ((EnhancedMain.main_loop iter fs db_ok rest' con').1 = Exited →
     ∃ l, l ∈ line :: rest ∧ trim l = "9")) as Hnext.
  { intros rest' con' Hlen' HP' Hsub.
    destruct (IH rest' con' Hlen' HP') as (Hab & HP'' & Hex).
    split_and!; [done..|]. intros (l & Hl & H9)%Hex. exists l. auto. }
  assert (∀ l, l ∈ rest → l ∈ line :: rest) as Hrest
    by (intros l; apply list_elem_of_further).
  cbn [EnhancedMain.main_loop]. repeat case_decide.
  - destruct rest as [|arg rest'].
    + apply Hnext; [simpl; lia|by apply P_load|done].
    + apply Hnext; [simpl in *; lia|by apply P_load|].
      intros l Hl. by do 2 apply list_elem_of_further.
  - destruct (enhanced_printCourseList_returns iter iter_ok
                (con_catalog (say (EnhancedMain.printMenu +:+ EnhancedMain.ask_choice) con)))
      as [out ->].
    apply Hnext; [lia|done..].
  - destruct rest as [|arg rest'].
    + apply Hnext; [simpl; lia|done..].
    + apply Hnext; [simpl in *; lia|done|].
      intros l Hl. by do 2 apply list_elem_of_further.
  - destruct (printRecommendedOrder_returns iter iter_ok
                (con_catalog (say (EnhancedMain.printMenu +:+ EnhancedMain.ask_choice) con)))
      as [out ->].
    apply Hnext; [lia|done..].
  - apply Hnext; [lia|done..].
  - split_and!; [done..|]. intros _. exists line.
    split; [apply list_elem_of_here|done].
  - apply Hnext; [lia|done..].
Qed.

End EnhancedSession.

Section OriginalSession.

Variable iter : ∀ V : Type, gmap string V → list (string * V).
Hypothesis iter_ok : valid_iter iter.
Variable fs : FileSystem.

(** A property of the catalog that every load keeps. *)
Variable P : Catalog → Prop.
Hypothesis P_load : ∀ filename (catalog : Catalog),
  P catalog → P (Original.loadCourses fs filename catalog).1.2.

Lemma original_do_load_inv line con :
  P (con_catalog con) → P (con_catalog (OriginalMain.do_load fs line con)).
Proof.
  intros HP. unfold OriginalMain.do_load. case_decide; [done|].
  by apply P_load.
Qed.

Lemma original_main_loop_inv n inputs con :
  length inputs ≤ n → P (con_catalog con) →
  ((OriginalMain.main_loop iter fs inputs con).1 = Aborted →
   ∃ line, line ∈ inputs ∧ OriginalMain.read_choice line = OriginalMain.Overflow) ∧
  P (con_catalog (OriginalMain.main_loop iter fs inputs con).2) ∧
  ((OriginalMain.main_loop iter fs inputs con).1 = Exited →
   ∃ line, line ∈ inputs ∧ OriginalMain.read_choice line = OriginalMain.Number 9).
Proof.
  revert inputs con. induction n as [|n IH]; intros inputs con Hlen HP;
    destruct inputs as [|line rest]; simpl in Hlen; try lia;
    try (by split_and!).
  assert (∀ rest' con',
    length rest' ≤ n → P (con_catalog con') → (∀ l, l ∈ rest' → l ∈ line :: rest) →
    ((OriginalMain.main_loop iter fs rest' con').1 = Aborted →
     ∃ l, l ∈ line :: rest ∧
          OriginalMain.read_choice l = OriginalMain.Overflow) ∧
    P (con_catalog (OriginalMain.main_loop iter fs rest' con').2) ∧
    ((OriginalMain.main_loop iter fs rest' con').1 = Exited →
     ∃ l, l ∈ line :: rest ∧
          OriginalMain.read_choice l = OriginalMain.Number 9)) as Hnext.
  { intros rest' con' Hlen' HP' Hsub.
    destruct (IH rest' con' Hlen' HP') as (Hab & HP'' & Hex).
    split_and!; [|done|].
    - intros (l & Hl & Ho)%Hab. exists l. auto.
    - intros (l & Hl & H9)%Hex. exists l. auto. }
  assert (∀ l, l ∈ rest → l ∈ line :: rest) as Hrest
    by (intros l; apply list_elem_of_further).
  cbn [OriginalMain.main_loop].
  destruct (OriginalMain.read_choice line) as [text| |m] eqn:Hchoice.
  - apply Hnext; [lia|done..].
  - split_and!; [|done..]. intros _. exists line.
    split; [apply list_elem_of_here|done].
  - repeat case_decide.
    + destruct rest as [|arg rest'].
      * apply Hnext; [simpl; lia|by apply original_do_load_inv|done].
      * apply Hnext; [simpl in *; lia|by apply original_do_load_inv|].
        intros l Hl. by do 2 apply list_elem_of_further.
    + destruct (original_printCourseList_returns iter iter_ok
        (con_catalog (say (OriginalMain.printMenu +:+ OriginalMain.ask_choice) con)))
        as [out ->].
      apply Hnext; [lia|done..].
    + destruct rest as [|arg rest'].
      * apply Hnext; [simpl; lia|done..].
      * apply Hnext; [simpl in *; lia|done|].
        intros l Hl. by do 2 apply list_elem_of_further.
    + split_and!; [done..|]. intros _. exists line.
      split; [apply list_elem_of_here|by subst m].
    + apply Hnext; [lia|done..].
Qed.

End OriginalSession.

Lemma read_choice_Overflow line :
  OriginalMain.read_choice line = OriginalMain.Overflow ↔
  trim line ≠ "" ∧ string_forall isdigit (trim line) = true ∧
  (INT_MAX < decimal (trim line))%N.
Proof.
  unfold OriginalMain.read_choice, stoi.
  case_decide as He; [by split; [|intros [? _]]|].
  destruct (string_forall isdigit (trim line)) eqn:Hd; simpl;
    [|by split; [|intros (_ & ? & _)]].
  destruct (INT_MAX <? decimal (trim line))%N eqn:Hn.
  - apply N.ltb_lt in Hn. by split.
  - apply N.ltb_ge in Hn. split; [done|]. intros (_ & _ & ?). lia.
Qed.

Lemma read_choice_Number line n :
  OriginalMain.read_choice line = OriginalMain.Number n ↔
  trim line ≠ "" ∧ string_forall isdigit (trim line) = true ∧
  decimal (trim line) = n ∧ (n ≤ INT_MAX)%N.
Proof.
  unfold OriginalMain.read_choice, stoi.
  case_decide as He; [by split; [|intros [? _]]|].
  destruct (string_forall isdigit (trim line)) eqn:Hd; simpl;
    [|by split; [|intros (_ & ? & _)]].
  destruct (INT_MAX <? decimal (trim line))%N eqn:Hn.
  - apply N.ltb_lt in Hn. split; [done|]. intros (_ & _ & <- & ?). lia.
  - apply N.ltb_ge in Hn. split.
    + intros [= <-]. done.
    + by intros (_ & _ & <- & _).
Qed.

(** X14. A session of the enhanced program never ends by an exception,
    whatever is typed and whatever the files hold; it exits only when a
    line typed is the choice 9 (so at the end of the input it stays in the
    loop).  Its catalog is at any end either empty or the catalog loaded
    from a file that opened, hence key-consistent with well-formed
    courses. *)
Theorem enhanced_session iter (fs : FileSystem) db_ok inputs :
  valid_iter iter →
  let r := EnhancedMain.main iter fs db_ok inputs in
  r.1 ≠ Aborted ∧
  (r.1 = Exited → ∃ line, line ∈ inputs ∧ trim line = "9") ∧
  (con_catalog r.2 = ∅ ∨
   ∃ filename content, fs filename = Some content ∧
     con_catalog r.2 = Enhanced.load_lines (getline_all "010"%char None content)) ∧
  key_consistent (con_catalog r.2) ∧
  map_Forall (λ _ c, well_formed c) (con_catalog r.2).
Proof.
  intros Hiter r. subst r. unfold EnhancedMain.main.
  set (P := λ catalog : Catalog, catalog = ∅ ∨
    ∃ filename content, fs filename = Some content ∧
      catalog = Enhanced.load_lines (getline_all "010"%char None content)).
  destruct (enhanced_main_loop_inv iter Hiter fs db_ok P) with
    (n := length inputs) (inputs := inputs)
    (con := mkConsole ∅ EnhancedMain.welcome "") as (Hab & HP & Hex);
    [|done|by left|].
  { intros line catalog HP. unfold Enhanced.choice_load, Enhanced.loadCourses.
    destruct (fs (trim line)) as [content|] eqn:Hfs; cbn [fst snd]; [|done].
    right. by exists (trim line), content. }
  split_and!; [done..| |].
  - destruct HP as [->|(? & ? & _ & ->)];
      [apply key_consistent_empty|apply enhanced_load_lines_consistent].
  - destruct HP as [->|(? & ? & _ & ->)]; [apply map_Forall_empty|].
    apply enhanced_fold_well_formed, map_Forall_empty.
Qed.

(** X15. A session of the original program ends by an exception only
    when a line typed is a string of digits whose value exceeds [INT_MAX]
    ([std::stoi] throws), and does so at once when the first line is such
    a string; it exits only when a line typed is a string of digits of
    value 9, and does so at once when the first line is one, leading zeros
    included.  Its catalog is at any end key-consistent and holds no empty
    code. *)
Theorem original_session iter (fs : FileSystem) inputs :
  valid_iter iter →
  let r := OriginalMain.main iter fs inputs in
  (r.1 = Aborted →
   ∃ line, line ∈ inputs ∧ trim line ≠ "" ∧
     string_forall isdigit (trim line) = true ∧
     (INT_MAX < decimal (trim line))%N) ∧
  (r.1 = Exited →
   ∃ line, line ∈ inputs ∧
     string_forall isdigit (trim line) = true ∧ decimal (trim line) = 9%N) ∧
  (∀ line rest,
     inputs = line :: rest → trim line ≠ "" →
     string_forall isdigit (trim line) = true →
     ((INT_MAX < decimal (trim line))%N → r.1 = Aborted) ∧
     (decimal (trim line) = 9%N → r.1 = Exited)) ∧
  key_consistent (con_catalog r.2) ∧
  con_catalog r.2 !! "" = None.
Proof.
  intros Hiter r. subst r. unfold OriginalMain.main.
  set (P := λ catalog : Catalog, key_consistent catalog ∧ catalog !! "" = None).
  destruct (original_main_loop_inv iter Hiter fs P) with
    (n := length inputs) (inputs := inputs)
    (con := mkConsole ∅ OriginalMain.welcome "") as (Hab & HP & Hex);
    [|done|by split; [apply key_consistent_empty|]|].
  { intros filename catalog [Hk He]. unfold Original.loadCourses.
    destruct (fs filename) as [content|]; cbn [fst snd]; [|done].
    split; [apply original_load_lines_consistent|apply original_load_no_empty_code]. }
  split_and!; [| | |apply HP..].
  - intros (line & Hl & Ho)%Hab. exists line.
    split; [done|]. by apply read_choice_Overflow.
  - intros (line & Hl & (_ & Hd & H9 & _)%read_choice_Number)%Hex.
    by exists line.
  - intros line rest -> Hne Hd. cbn [OriginalMain.main_loop]. split.
    + intros Hbig.
      by rewrite (proj2 (read_choice_Overflow line)).
    + intros H9.
      rewrite (proj2 (read_choice_Number line 9)); [done|].
      split_and!; [done..|]. unfold INT_MAX. lia.
Qed.

(** ** The order among all topological orders *)

Section Least.

Variable iter : ∀ V : Type, gmap string V → list (string * V).
Hypothesis iter_ok : valid_iter iter.
Variable catalog : Catalog.



(** Every code of the output was the least ready code of a state whose
    output was the codes before it. *)
Lemma kahn_reachable_prefix st pre u r :
  kahn_reachable iter catalog st →
  Enhanced.order st = pre ++ u :: r →
  ∃ st0, kahn_reachable iter catalog st0 ∧ Enhanced.order st0 = pre ∧
         Enhanced.set_begin (Enhanced.zero st0) = Some u.
Proof.
  unfold kahn_reachable. intros Hreach. revert pre u r.
  eapply (rtc_ind_r (λ s, ∀ pre u r, Enhanced.order s = pre ++ u :: r →
    ∃ st0, rtc _ _ st0 ∧ Enhanced.order st0 = pre ∧
           Enhanced.set_begin (Enhanced.zero st0) = Some u));
    [| |exact Hreach].
  - intros pre u r Hnil. by destruct pre.
  - intros s1 s2 Hs1 Hstep IH pre u r Horder. cbn beta in *.
    unfold Enhanced.kahn_step in Hstep.
    destruct (Enhanced.set_begin (Enhanced.zero s1)) as [u1|] eqn:Hu1; [|done].
    simplify_eq/=.
    destruct r as [|x r _] using rev_ind.
    + apply app_inj_tail in Horder as [Hpre ->]. by exists s1.
    + rewrite app_comm_cons, app_assoc in Horder.
      apply app_inj_tail in Horder as [Horder ->]. by eapply IH.
Qed.

End Least.


(** ** The further properties at the sample data *)

Lemma canonCode_filter_spec_witness :
  string_forall (λ ch, negb (isalnum ch)) " -- " = true ∧ canonCode " -- " = "".
Proof.
  assert (string_forall (λ ch, negb (isalnum ch)) " -- " = true) as Hnone
    by reflexivity.
  split; [exact Hnone|].
  exact (proj2 (proj2 (proj2 canonCode_filter_spec) " -- ") Hnone).
Defined.

Lemma loaded_courses_well_formed_witness :
  Enhanced.load_lines (getline_all "010"%char None sample_file) !! "CSCI200" =
    Some {| number := "CSCI200"; title := "Data Structures";
            prereqs := ["CSCI101"; "MATH201"] |} ∧
  well_formed {| number := "CSCI200"; title := "Data Structures";
                 prereqs := ["CSCI101"; "MATH201"] |}.
Proof.
  assert (Enhanced.load_lines (getline_all "010"%char None sample_file)
            !! "CSCI200" =
          Some {| number := "CSCI200"; title := "Data Structures";
                  prereqs := ["CSCI101"; "MATH201"] |}) as Hk
    by (vm_compute; reflexivity).
  split; [exact Hk|].
  exact (loaded_courses_well_formed _ "CSCI200" _ (or_intror Hk)).
Defined.

Lemma last_record_wins_witness :
  record_of "A,Title2" =
    Some {| number := "A"; title := "Title2"; prereqs := [] |} ∧
  Enhanced.load_lines (["A,Title1"] ++ "A,Title2" :: ["B,Other"]) !! "A" =
    Some {| number := "A"; title := "Title2"; prereqs := [] |} ∧
  Original.ls_catalog
    (Original.load_lines (["A,Title1"] ++ "A,Title2" :: ["B,Other"])) !! "A" =
    Some {| number := "A"; title := "Title2"; prereqs := [] |}.
Proof.
  assert (record_of "A,Title2" =
          Some {| number := "A"; title := "Title2"; prereqs := [] |}) as Hrec
    by (vm_compute; reflexivity).
  assert (∀ l c', l ∈ ["B,Other"] → record_of l = Some c' →
    number c' ≠ number {| number := "A"; title := "Title2"; prereqs := [] |})
    as Hpost.
  { intros l c' Hl Hc'. apply list_elem_of_singleton in Hl. subst l.
    vm_compute in Hc'. injection Hc' as <-. discriminate. }
  assert ("A" ≠ "") as Hne by discriminate.
  destruct (last_record_wins ["A,Title1"] "A,Title2" ["B,Other"] _ Hrec Hpost)
    as [He Ho].
  split; [exact Hrec|]. split; [exact He|exact (Ho Hne)].
Defined.

Lemma load_order_independent_witness :
  NoDup (record_codes ["A,First"; "# note"; "B,Second,A"]) ∧
  ["A,First"; "# note"; "B,Second,A"] ≡ₚ ["B,Second,A"; "A,First"; "# note"] ∧
  Enhanced.load_lines ["A,First"; "# note"; "B,Second,A"] =
    Enhanced.load_lines ["B,Second,A"; "A,First"; "# note"] ∧
  Original.ls_catalog (Original.load_lines ["A,First"; "# note"; "B,Second,A"]) =
    Original.ls_catalog (Original.load_lines ["B,Second,A"; "A,First"; "# note"]).
Proof.
  assert (NoDup (record_codes ["A,First"; "# note"; "B,Second,A"])) as Hnd.
  { vm_compute. apply NoDup_cons. split.
    - intros Hin. apply list_elem_of_singleton in Hin. discriminate.
    - apply NoDup_singleton. }
  assert (["A,First"; "# note"; "B,Second,A"] ≡ₚ
          ["B,Second,A"; "A,First"; "# note"]) as Hperm.
  { apply (Permutation_app_comm ["A,First"; "# note"] ["B,Second,A"]). }
  split; [exact Hnd|]. split; [exact Hperm|].
  exact (proj2 load_order_independent _ _ Hnd Hperm).
Defined.

Lemma original_is_enhanced_without_empty_code_witness :
  is_Some (empty_code_fs "courses.csv") ∧
  (Original.loadCourses empty_code_fs "courses.csv" ∅).1.2 =
    delete "" (Enhanced.loadCourses empty_code_fs "courses.csv" ∅).2.
Proof.
  assert (is_Some (empty_code_fs "courses.csv")) as Hopen
    by (eexists; reflexivity).
  split; [exact Hopen|].
  exact (proj2 (original_is_enhanced_without_empty_code empty_code_fs
                  "courses.csv" ∅) Hopen).
Defined.

Lemma loaded_count_witness :
  NoDup (record_codes (getline_all "010"%char None sample_file)) ∧
  size (Enhanced.load_lines (getline_all "010"%char None sample_file)) =
    length (record_codes (getline_all "010"%char None sample_file)).
Proof.
  assert (NoDup (record_codes (getline_all "010"%char None sample_file))) as Hnd.
  { vm_compute. repeat (apply NoDup_cons; split;
      [rewrite ?elem_of_cons, elem_of_nil; intros Hin;
       repeat destruct Hin as [Hin|Hin]; done || discriminate|]).
    apply NoDup_nil_2. }
  split; [exact Hnd|].
  exact (proj2 (proj2 (proj2 (loaded_count _))) Hnd).
Defined.

Lemma printCourseList_sorted_witness :
  (valid_iter key_order ∧ valid_iter rev_order ∧ sample_catalog ≠ ∅) ∧
  ∃ keys cs,
    StronglySorted String.le keys ∧ NoDup keys ∧
    (∀ k, k ∈ keys ↔ is_Some (sample_catalog !! k)) ∧
    Forall2 (λ k c, sample_catalog !! k = Some c) keys cs ∧
    Enhanced.printCourseList key_order sample_catalog =
      Returns ("Course List:" +:+ nl
                 +:+ String.concat "" (Enhanced.course_row <$> cs)) ∧
    Original.printCourseList key_order sample_catalog =
      Returns ("Here is a sample schedule:" +:+ nl
                 +:+ String.concat "" (Original.course_row <$> cs)) ∧
    Enhanced.printCourseList rev_order sample_catalog =
      Enhanced.printCourseList key_order sample_catalog ∧
    Original.printCourseList rev_order sample_catalog =
      Original.printCourseList key_order sample_catalog.
Proof.
  assert (valid_iter key_order) as Hkey by (intros V m; reflexivity).
  assert (valid_iter rev_order) as Hrev
    by (intros V m; apply reverse_Permutation).
  assert (sample_catalog ≠ ∅) as Hne.
  { intros Heq. assert (size sample_catalog = 0) as Hsize
      by (rewrite Heq; apply map_size_empty).
    vm_compute in Hsize. discriminate. }
  split; [by split_and!|].
  exact (printCourseList_sorted key_order rev_order sample_catalog Hkey Hrev Hne).
Defined.

Lemma printSingleCourse_insensitive_witness :
  (upcase "csci200" = upcase "CSCI200" ∧
   is_Some (sample_catalog !! canonCode "csci200")) ∧
  Enhanced.printSingleCourse sample_catalog "csci200" =
    Enhanced.printSingleCourse sample_catalog "CSCI200" ∧
  Original.printSingleCourse sample_catalog "csci200" =
    Original.printSingleCourse sample_catalog "CSCI200".
Proof.
  assert (upcase "csci200" = upcase "CSCI200") as Hcase by reflexivity.
  assert (is_Some (sample_catalog !! canonCode "csci200")) as Hfound
    by (eexists; vm_compute; reflexivity).
  destruct (proj1 (printSingleCourse_insensitive sample_catalog)
              "csci200" "CSCI200" Hcase) as [He Ho].
  split; [by split|]. split; [exact He|exact (Ho Hfound)].
Defined.


Lemma recommendedOrder_complete_witness :
  (valid_iter key_order ∧ (∀ y, ¬ tc (prereq_edge chain_catalog) y y)) ∧
  ∃ order,
    Enhanced.recommendedOrder key_order chain_catalog = Some order ∧
    ((∀ y, ¬ tc (prereq_edge chain_catalog) y y) →
       order ≡ₚ (map_to_list chain_catalog).*1 ∧
       length order = size chain_catalog ∧
       (chain_catalog ≠ ∅ →
        ∃ rows, Enhanced.order_rows chain_catalog order = Some rows ∧
          Enhanced.printRecommendedOrder key_order chain_catalog =
            Returns ("Recommended Course Order:" +:+ nl +:+ rows))) ∧
    (length order ≠ size chain_catalog ↔
     ∃ y, tc (prereq_edge chain_catalog) y y).
Proof.
  assert (valid_iter key_order) as Hiter by (intros V m; reflexivity).
  assert (∀ x z, prereq_edge chain_catalog x z → x = "A" ∧ z = "B") as Hedge.
  { intros x z (c & Hc & Hin & _). unfold chain_catalog in Hc.
    apply lookup_insert_Some in Hc as [[<- <-]|[_ Hc]].
    - by apply elem_of_nil in Hin.
    - apply lookup_singleton_Some in Hc as [<- <-].
      by apply list_elem_of_singleton in Hin. }
  assert (∀ y, ¬ tc (prereq_edge chain_catalog) y y) as Hacyclic.
  { intros y Hy.
    assert (∀ x z, tc (prereq_edge chain_catalog) x z → x = "A" ∧ z = "B")
      as Htc.
    { intros x z Hxz. induction Hxz as [x z He|x w z He _ [HA _]].
      - by apply Hedge.
      - apply Hedge in He as [_ ->]. discriminate. }
    apply Htc in Hy as [-> ?]. discriminate. }
  split; [by split|].
  exact (recommendedOrder_complete key_order chain_catalog Hiter).
Defined.

Lemma enhanced_session_witness :
  valid_iter key_order ∧
  let r := EnhancedMain.main key_order sample_fs true
             ["1"; "courses.csv"; "4"; "9"] in
  r.1 ≠ Aborted ∧
  (r.1 = Exited →
   ∃ line, line ∈ ["1"; "courses.csv"; "4"; "9"] ∧ trim line = "9") ∧
  (con_catalog r.2 = ∅ ∨
   ∃ filename content, sample_fs filename = Some content ∧
     con_catalog r.2 = Enhanced.load_lines (getline_all "010"%char None content)) ∧
  key_consistent (con_catalog r.2) ∧
  map_Forall (λ _ c, well_formed c) (con_catalog r.2).
Proof.
  assert (valid_iter key_order) as Hiter by (intros V m; reflexivity).
  split; [exact Hiter|].
  exact (enhanced_session key_order sample_fs true
           ["1"; "courses.csv"; "4"; "9"] Hiter).
Defined.

Lemma original_session_witness :
  (valid_iter key_order ∧ trim "99999999999" ≠ "" ∧
   string_forall isdigit (trim "99999999999") = true ∧
   (INT_MAX < decimal (trim "99999999999"))%N) ∧
  (OriginalMain.main key_order sample_fs ["99999999999"; "9"]).1 = Aborted.
Proof.
  assert (valid_iter key_order) as Hiter by (intros V m; reflexivity).
  assert (trim "99999999999" ≠ "") as Hne by (vm_compute; discriminate).
  assert (string_forall isdigit (trim "99999999999") = true) as Hd
    by reflexivity.
  assert (INT_MAX < decimal (trim "99999999999"))%N as Hbig
    by (vm_compute; reflexivity).
  destruct (original_session key_order sample_fs ["99999999999"; "9"] Hiter)
    as (_ & _ & Hfirst & _).
  split; [by split_and!|].
  exact (proj1 (Hfirst "99999999999" ["9"] eq_refl Hne Hd) Hbig).
Defined.


(** X17. The graph does not depend on the order in which the catalog is
    traversed: the in-degree maps are equal, the adjacency maps have the
    same keys, and each successor list holds the same codes the same number
    of times, in an order that may differ. *)
Theorem buildGraph_hash_order iter iter' (catalog : Catalog) :
  valid_iter iter → valid_iter iter' →
  (Enhanced.buildGraph iter catalog).2 = (Enhanced.buildGraph iter' catalog).2 ∧
  dom (Enhanced.buildGraph iter catalog).1 =
    dom (Enhanced.buildGraph iter' catalog).1 ∧
  ∀ u, (Enhanced.buildGraph iter catalog).1 !!! u ≡ₚ
       (Enhanced.buildGraph iter' catalog).1 !!! u.
Proof.
  intros Hiter Hiter'. split_and!.
  - by apply buildGraph_indegree_indep.
  - apply set_eq. intros k. rewrite !elem_of_dom.
    by rewrite (buildGraph_adj_dom iter Hiter), (buildGraph_adj_dom iter' Hiter').
  - by apply buildGraph_adj_indep.
Qed.

Lemma buildGraph_hash_order_witness :
  (valid_iter key_order ∧ valid_iter rev_order) ∧
  (Enhanced.buildGraph key_order sample_catalog).2 =
    (Enhanced.buildGraph rev_order sample_catalog).2 ∧
  dom (Enhanced.buildGraph key_order sample_catalog).1 =
    dom (Enhanced.buildGraph rev_order sample_catalog).1 ∧
  ∀ u, (Enhanced.buildGraph key_order sample_catalog).1 !!! u ≡ₚ
       (Enhanced.buildGraph rev_order sample_catalog).1 !!! u.
Proof.
  assert (valid_iter key_order) as Hkey by (intros V m; reflexivity).
  assert (valid_iter rev_order) as Hrev
    by (intros V m; apply reverse_Permutation).
  split; [by split|].
  exact (buildGraph_hash_order key_order rev_order sample_catalog Hkey Hrev).
Defined.

(** X18. The in-degrees never leave the range of [int] on catalogs
    whose prerequisite lists are shorter than [INT_MAX]: after
    [buildGraph] and each time the loop of the sorter tests its condition,
    an in-degree is at least 0 and at most the length of the prerequisite
    list of its course, and only catalog keys have one. *)
Theorem indegree_bounds iter (catalog : Catalog) :
  valid_iter iter →
  (∀ C d, (Enhanced.buildGraph iter catalog).2 !! C = Some d →
     ∃ c, catalog !! C = Some c ∧ (0 ≤ d ≤ Z.of_nat (length (prereqs c)))%Z) ∧
  (∀ st C d,
     kahn_reachable iter catalog st → Enhanced.indegree st !! C = Some d →
     ∃ c, catalog !! C = Some c ∧ (0 ≤ d ≤ Z.of_nat (length (prereqs c)))%Z).
Proof.
  intros Hiter. split.
  - intros C d. by apply buildGraph_indegree_bounds.
  - intros st C d. by apply kahn_reachable_indegree_bounds.
Qed.

Lemma indegree_bounds_witness :
  (valid_iter key_order ∧
   kahn_reachable key_order sample_catalog sample_state ∧
   Enhanced.indegree sample_state !! "CSCI200" = Some 1%Z) ∧
  ∃ c, sample_catalog !! "CSCI200" = Some c ∧
       (0 ≤ 1 ≤ Z.of_nat (length (prereqs c)))%Z.
Proof.
  assert (valid_iter key_order) as Hiter by (intros V m; reflexivity).
  assert (kahn_reachable key_order sample_catalog sample_state) as Hreach
    by apply rtc_refl.
  assert (Enhanced.indegree sample_state !! "CSCI200" = Some 1%Z) as Hd
    by (vm_compute; reflexivity).
  split; [by split_and!|].
  exact (proj2 (indegree_bounds key_order sample_catalog Hiter)
           sample_state "CSCI200" 1%Z Hreach Hd).
Defined.

(** ** The report on a cycle, and the choice of the next code *)

Lemma order_rows_offset (catalog : Catalog) (l : list string) (cs : list Course) :
  Forall2 (λ k c, catalog !! k = Some c) l cs →
  ∀ n,
    Forall2 (λ (ik : nat * string) row,
               Enhanced.order_row catalog ik.1 ik.2 = Some row)
      (imap (λ i k, (n + i, k)) l)
      (imap (λ i c, pretty (n + i + 1) +:+ ". " +:+ number c +:+ " - "
                      +:+ title c +:+ nl) cs).
Proof.
  induction 1 as [|k c l cs Hkc _ IH]; intros n; [constructor|].
  rewrite !imap_cons. constructor.
  - unfold Enhanced.order_row. cbn [fst snd]. by rewrite Hkc.
  - rewrite (imap_ext _ (λ i k, (S n + i, k)) l),
      (imap_ext _ (λ i c, pretty (S n + i + 1) +:+ ". " +:+ number c +:+ " - "
                            +:+ title c +:+ nl) cs).
    + apply IH.
    + intros i x _. unfold compose.
      by replace (n + S i) with (S n + i) by lia.
    + intros i x _. unfold compose.
      by replace (n + S i) with (S n + i) by lia.
Qed.

(** The rows of the report: one for each code of the order, in that order,
    numbered from 1, with the number and the title of the code's course. *)
Lemma order_rows_text (catalog : Catalog) (l : list string) (cs : list Course) :
  Forall2 (λ k c, catalog !! k = Some c) l cs →
  Enhanced.order_rows catalog l =
    Some (String.concat ""
            (imap (λ i c, pretty (i + 1) +:+ ". " +:+ number c +:+ " - "
                            +:+ title c +:+ nl) cs)).
Proof.
  intros Hcs. unfold Enhanced.order_rows.
  assert (mapM (λ ik, Enhanced.order_row catalog ik.1 ik.2) (imap pair l) =
          Some (imap (λ i c, pretty (i + 1) +:+ ". " +:+ number c +:+ " - "
                               +:+ title c +:+ nl) cs)) as ->; [|done].
  apply mapM_Some. exact (order_rows_offset catalog l cs Hcs 0).
Qed.

Lemma kahn_loop_final fuel adj st l :
  Enhanced.kahn_loop fuel adj st = Some l →
  ∃ st', rtc (λ s s', Enhanced.kahn_step adj s = Some s') st st' ∧
         Enhanced.order st' = l ∧ Enhanced.kahn_step adj st' = None.
Proof.
  revert st. induction fuel as [|fuel IH]; intros st; cbn [Enhanced.kahn_loop];
    destruct (Enhanced.kahn_step adj st) as [st1|] eqn:Hstep; try done.
  - intros [= <-]. by exists st.
  - intros (st' & Hreach & Hl & Hend)%IH. exists st'. split_and!; [|done..].
    by eapply rtc_l.
  - intros [= <-]. by exists st.
Qed.

(** The order that the sorter returns is the output of a state that the
    loop reaches from its initial state, and in which it stops. *)
Lemma recommendedOrder_final iter (catalog : Catalog) l :
  Enhanced.recommendedOrder iter catalog = Some l →
  ∃ st, kahn_reachable iter catalog st ∧ Enhanced.order st = l ∧
        Enhanced.kahn_step (Enhanced.buildGraph iter catalog).1 st = None.
Proof. apply kahn_loop_final. Qed.

(** The set [zero] holds the ready codes. *)
Lemma kahn_inv_ready (catalog : Catalog) st w :
  kahn_inv catalog st →
  (w ∈ Enhanced.zero st ↔ ready catalog (Enhanced.order st) w).
Proof.
  intros Hinv. split.
  - intros Hw. destruct (inv_zero_keys _ _ Hinv w Hw) as [c Hc].
    exists c. split_and!; [done|by apply (inv_disjoint _ _ Hinv)|].
    intros p. apply remaining_zero. apply (inv_ready _ _ Hinv w c Hc). by left.
  - intros (c & Hc & Hnot & Hall).
    assert (remaining catalog (Enhanced.order st) c = 0%Z) as Hrem.
    { unfold remaining.
      assert (filter (λ p, is_Some (catalog !! p) ∧ p ∉ Enhanced.order st)
                (prereqs c) = []) as ->; [|done].
      apply elem_of_nil_inv. intros p [[Hp Hout] Hin]%list_elem_of_filter.
      by apply Hout, Hall. }
    by apply (inv_ready _ _ Hinv w c Hc) in Hrem as [Hz|Ho].
Qed.

(** C2. When the catalog has a cycle of prerequisites, the sorter
    returns an order strictly shorter than the catalog, and the function
    returns normally with this report: the header, then one row for each
    code of that partial order, in that order, numbered from 1 and showing
    the number and the title of the code's course, then the cycle warning.
    For the two-course catalog in which A requires B and B requires A the
    order is empty (so shorter than 2) and the report is the header
    followed by the warning. *)
Theorem cycle_reported iter :
  valid_iter iter →
  (∀ (catalog : Catalog) x,
     tc (prereq_edge catalog) x x →
     ∃ order cs rows,
       Enhanced.recommendedOrder iter catalog = Some order ∧
       length order < size catalog ∧
       Forall2 (λ k c, catalog !! k = Some c) order cs ∧
       rows = String.concat ""
                (imap (λ i c, pretty (i + 1) +:+ ". " +:+ number c +:+ " - "
                                +:+ title c +:+ nl) cs) ∧
       Enhanced.order_rows catalog order = Some rows ∧
       Enhanced.printRecommendedOrder iter catalog =
         Returns ("Recommended Course Order:" +:+ nl +:+ rows
                    +:+ Enhanced.msg_cycle)) ∧
  (∀ tA tB,
     let catalog : Catalog :=
       {[ "A" := {| number := "A"; title := tA; prereqs := ["B"] |};
          "B" := {| number := "B"; title := tB; prereqs := ["A"] |} ]} in
     Enhanced.recommendedOrder iter catalog = Some [] ∧
     length ([] : list string) < 2 ∧
     Enhanced.printRecommendedOrder iter catalog =
       Returns ("Recommended Course Order:" +:+ nl +:+ Enhanced.msg_cycle)).
Proof.
  intros Hiter.
  assert (∀ (catalog : Catalog) x,
    tc (prereq_edge catalog) x x →
    ∃ st cs rows,
      Enhanced.recommendedOrder iter catalog = Some (Enhanced.order st) ∧
      kahn_inv catalog st ∧
      length (Enhanced.order st) < size catalog ∧
      Forall2 (λ k c, catalog !! k = Some c) (Enhanced.order st) cs ∧
      rows = String.concat ""
               (imap (λ i c, pretty (i + 1) +:+ ". " +:+ number c +:+ " - "
                               +:+ title c +:+ nl) cs) ∧
      Enhanced.order_rows catalog (Enhanced.order st) = Some rows ∧
      Enhanced.printRecommendedOrder iter catalog =
        Returns ("Recommended Course Order:" +:+ nl +:+ rows
                   +:+ Enhanced.msg_cycle)) as Hgen.
  { intros catalog x Hcycle.
    destruct (recommendedOrder_returns iter Hiter catalog) as (st & Hst & Hinv & _).
    pose proof (cycle_in_catalog catalog x Hcycle) as Hx.
    assert (length (Enhanced.order st) < size catalog) as Hlen.
    { apply (keys_length_missing catalog _ x (inv_nodup _ _ Hinv)
               (inv_order_keys _ _ Hinv) Hx).
      by apply (cycle_not_sorted catalog _ x (inv_topo _ _ Hinv)). }
    destruct (listing_courses catalog (Enhanced.order st)
                (inv_order_keys _ _ Hinv)) as (cs & _ & Hcs).
    pose proof (order_rows_text catalog _ cs Hcs) as Hrows.
    exists st, cs. eexists.
    split_and!; [exact Hst|exact Hinv|exact Hlen|exact Hcs|reflexivity
                |exact Hrows|].
    unfold Enhanced.printRecommendedOrder.
    rewrite decide_False.
    - rewrite Hst, Hrows. rewrite decide_True by lia. done.
    - intros ->. rewrite lookup_empty in Hx. by destruct Hx. }
  split.
  - intros catalog x Hcycle.
    destruct (Hgen catalog x Hcycle) as (st & cs & rows & ? & _ & ? & ? & ? & ? & ?).
    by exists (Enhanced.order st), cs, rows.
  - intros tA tB catalog.
    assert (prereq_edge catalog "A" "B") as HAB.
    { eexists. split; [done|]. split; [by apply list_elem_of_singleton|].
      by eexists. }
    assert (prereq_edge catalog "B" "A") as HBA.
    { eexists. split; [done|]. split; [by apply list_elem_of_singleton|].
      by eexists. }
    assert (tc (prereq_edge catalog) "A" "A") as HA.
    { eapply tc_l; [exact HAB|]. by apply tc_once. }
    assert (tc (prereq_edge catalog) "B" "B") as HB.
    { eapply tc_l; [exact HBA|]. by apply tc_once. }
    destruct (Hgen catalog "A" HA)
      as (st & cs & rows & Hst & Hinv & _ & _ & _ & Hrows & Hprint).
    assert (Enhanced.order st = []) as Hnil.
    { apply elem_of_nil_inv. intros k Hk.
      pose proof (inv_order_keys _ _ Hinv k Hk) as Hcat.
      assert (k = "A" ∨ k = "B") as [-> | ->].
      { subst catalog. destruct Hcat as [c Hc].
        apply lookup_insert_Some in Hc as [[<- _]|[_ Hc]]; [by left|].
        apply lookup_singleton_Some in Hc as [<- _]. by right. }
      - by apply (cycle_not_sorted catalog _ "A" (inv_topo _ _ Hinv) HA).
      - by apply (cycle_not_sorted catalog _ "B" (inv_topo _ _ Hinv) HB). }
    rewrite Hnil in *. split_and!; [done|simpl; lia|].
    rewrite Hprint. cbn in Hrows. by simplify_eq.
Qed.

(** C3. Each iteration of the loop appends to the output the
    lexicographically smallest code of the ready set, whatever the state;
    along a run the ready set holds exactly the codes not yet in the output
    whose remaining in-degree is zero.  The order that the sorter returns
    is built by these iterations: it is the output of a state that the loop
    reaches and in which no code is ready any more; and each code of it was
    appended by an iteration whose state had the codes before it as its
    output, and is the smallest of the codes that were ready then, the
    catalog courses not yet output whose in-catalog prerequisites all
    were.  So the returned order, like the report printed from it, depends
    on the catalog content only, not on the order in which the hash maps
    are traversed. *)
Theorem sorter_deterministic :
  (∀ adj st st',
     Enhanced.kahn_step adj st = Some st' →
     ∃ u, u ∈ Enhanced.zero st ∧
          (∀ w, w ∈ Enhanced.zero st → String.le u w) ∧
          Enhanced.order st' = Enhanced.order st ++ [u]) ∧
  (∀ iter (catalog : Catalog) st w,
     valid_iter iter → kahn_reachable iter catalog st →
     (w ∈ Enhanced.zero st ↔
      (¬ w ∈ Enhanced.order st) ∧ Enhanced.indegree st !! w = Some 0%Z)) ∧
  (∀ iter (catalog : Catalog),
     valid_iter iter →
     ∃ order final,
       Enhanced.recommendedOrder iter catalog = Some order ∧
       kahn_reachable iter catalog final ∧
       Enhanced.order final = order ∧
       Enhanced.kahn_step (Enhanced.buildGraph iter catalog).1 final = None ∧
       (∀ w, ¬ ready catalog order w) ∧
       (∀ pre u r,
          order = pre ++ u :: r →
          ∃ st st',
            kahn_reachable iter catalog st ∧
            Enhanced.order st = pre ∧
            Enhanced.kahn_step (Enhanced.buildGraph iter catalog).1 st = Some st' ∧
            Enhanced.order st' = pre ++ [u] ∧
            (∀ w, w ∈ Enhanced.zero st ↔ ready catalog pre w) ∧
            ready catalog pre u ∧
            (∀ w, ready catalog pre w → String.le u w))) ∧
  (∀ iter1 iter2 (catalog : Catalog),
     valid_iter iter1 → valid_iter iter2 →
     Enhanced.recommendedOrder iter1 catalog =
       Enhanced.recommendedOrder iter2 catalog ∧
     Enhanced.printRecommendedOrder iter1 catalog =
       Enhanced.printRecommendedOrder iter2 catalog).
Proof.
  split_and!.
  - intros adj st st'. unfold Enhanced.kahn_step.
    destruct (Enhanced.set_begin (Enhanced.zero st)) as [u|] eqn:Hu; [|done].
    intros [= <-]. apply set_begin_Some in Hu as [Hin Hleast].
    by exists u.
  - intros iter catalog st w Hiter. by apply kahn_reachable_ready.
  - intros iter catalog Hiter.
    destruct (recommendedOrder_returns iter Hiter catalog) as (st0 & Hst & _).
    destruct (recommendedOrder_final iter catalog _ Hst)
      as (final & Hreach & Horder & Hend).
    exists (Enhanced.order st0), final. split_and!; [done..| |].
    + intros w Hw. rewrite <- Horder in Hw.
      apply (kahn_inv_ready catalog final w) in Hw;
        [|by apply (kahn_reachable_inv iter)].
      unfold Enhanced.kahn_step in Hend.
      destruct (Enhanced.set_begin (Enhanced.zero final)) eqn:Hbegin; [done|].
      apply set_begin_None in Hbegin. rewrite Hbegin in Hw.
      by apply not_elem_of_empty in Hw.
    + intros pre u r Hsplit. rewrite <- Horder in Hsplit.
      destruct (kahn_reachable_prefix iter catalog final pre u r Hreach Hsplit)
        as (st & Hst' & Hpre & Hbegin).
      pose proof (kahn_reachable_inv iter Hiter catalog st Hst') as Hinv.
      pose proof (set_begin_Some _ _ Hbegin) as [Hin Hleast].
      exists st. eexists. split_and!; [done|done| | | | |].
      * unfold Enhanced.kahn_step. rewrite Hbegin. reflexivity.
      * cbn. by rewrite Hpre.
      * intros w. rewrite <- Hpre. by apply kahn_inv_ready.
      * rewrite <- Hpre. by apply kahn_inv_ready.
      * intros w Hw. apply Hleast. rewrite <- Hpre in Hw.
        by apply (kahn_inv_ready catalog st w).
  - intros iter1 iter2 catalog H1 H2.
    pose proof (recommendedOrder_indep iter1 iter2 H1 H2 catalog) as Heq.
    split; [done|]. unfold Enhanced.printRecommendedOrder. by rewrite Heq.
Qed.

(** *** Runs on a cycle and on a tie *)

Example partial_order :
  Enhanced.recommendedOrder key_order partial_catalog = Some ["C"; "D"] ∧
  Enhanced.recommendedOrder rev_order partial_catalog = Some ["C"; "D"].
Proof. by vm_compute. Qed.

Example tie_order :
  Enhanced.recommendedOrder key_order tie_catalog = Some ["B"; "A"; "C"] ∧
  Enhanced.recommendedOrder rev_order tie_catalog = Some ["B"; "A"; "C"].
Proof. by vm_compute. Qed.

Lemma cycle_reported_witness :
  valid_iter key_order ∧
  tc (prereq_edge partial_catalog) "A" "A" ∧
  Enhanced.recommendedOrder key_order partial_catalog = Some ["C"; "D"] ∧
  Enhanced.printRecommendedOrder key_order partial_catalog =
    Returns ("Recommended Course Order:" +:+ nl +:+
             "1. C - Third" +:+ nl +:+
             "2. D - Fourth" +:+ nl +:+ nl +:+
             "Warning: Circular dependency detected." +:+ nl) ∧
  ∃ order cs rows,
    Enhanced.recommendedOrder key_order partial_catalog = Some order ∧
    length order < size partial_catalog ∧
    Forall2 (λ k c, partial_catalog !! k = Some c) order cs ∧
    rows = String.concat ""
             (imap (λ i c, pretty (i + 1) +:+ ". " +:+ number c +:+ " - "
                             +:+ title c +:+ nl) cs) ∧
    Enhanced.order_rows partial_catalog order = Some rows ∧
    Enhanced.printRecommendedOrder key_order partial_catalog =
      Returns ("Recommended Course Order:" +:+ nl +:+ rows
                 +:+ Enhanced.msg_cycle).
Proof.
  assert (valid_iter key_order) as Hiter by (intros V m; reflexivity).
  assert (tc (prereq_edge partial_catalog) "A" "A") as Hcycle.
  { apply (tc_l _ "A" "B" "A"); [|apply tc_once].
    - eexists. split; [reflexivity|].
      split; [apply list_elem_of_here|eexists; reflexivity].
    - eexists. split; [reflexivity|].
      split; [apply list_elem_of_here|eexists; reflexivity]. }
  split; [exact Hiter|]. split; [exact Hcycle|].
  split; [vm_compute; reflexivity|]. split; [vm_compute; reflexivity|].
  exact (proj1 (cycle_reported key_order Hiter) partial_catalog "A" Hcycle).
Defined.

Lemma sorter_deterministic_witness :
  (Enhanced.kahn_step (Enhanced.buildGraph key_order tie_catalog).1
     tie_state = Some tie_next ∧
   "A" ∈ Enhanced.zero tie_state ∧ "C" ∈ Enhanced.zero tie_state ∧
   ∃ u, u ∈ Enhanced.zero tie_state ∧
        (∀ w, w ∈ Enhanced.zero tie_state → String.le u w) ∧
        Enhanced.order tie_next = Enhanced.order tie_state ++ [u]) ∧
  (valid_iter key_order ∧ kahn_reachable key_order tie_catalog tie_state ∧
   ("C" ∈ Enhanced.zero tie_state ↔
    (¬ "C" ∈ Enhanced.order tie_state) ∧
    Enhanced.indegree tie_state !! "C" = Some 0%Z)) ∧
  (Enhanced.recommendedOrder key_order tie_catalog = Some ["B"; "A"; "C"] ∧
   ready tie_catalog ["B"] "C" ∧
   ∃ st st',
     kahn_reachable key_order tie_catalog st ∧
     Enhanced.order st = ["B"] ∧
     Enhanced.kahn_step (Enhanced.buildGraph key_order tie_catalog).1 st =
       Some st' ∧
     Enhanced.order st' = ["B"] ++ ["A"] ∧
     (∀ w, w ∈ Enhanced.zero st ↔ ready tie_catalog ["B"] w) ∧
     ready tie_catalog ["B"] "A" ∧
     (∀ w, ready tie_catalog ["B"] w → String.le "A" w)) ∧
  (valid_iter rev_order ∧
   Enhanced.recommendedOrder key_order tie_catalog =
     Enhanced.recommendedOrder rev_order tie_catalog ∧
   Enhanced.printRecommendedOrder key_order tie_catalog =
     Enhanced.printRecommendedOrder rev_order tie_catalog).
Proof.
  assert (valid_iter key_order) as Hkey by (intros V m; reflexivity).
  assert (valid_iter rev_order) as Hrev
    by (intros V m; apply reverse_Permutation).
  assert (Enhanced.kahn_step (Enhanced.buildGraph key_order tie_catalog).1
            tie_state = Some tie_next) as Hstep by (vm_compute; reflexivity).
  assert (kahn_reachable key_order tie_catalog tie_state) as Hreach
    by (apply rtc_once; vm_compute; reflexivity).
  assert (Enhanced.recommendedOrder key_order tie_catalog =
            Some ["B"; "A"; "C"]) as Hrun by (vm_compute; reflexivity).
  assert (ready tie_catalog ["B"] "C") as HC.
  { eexists. split; [reflexivity|]. split.
    - intros Hin. apply list_elem_of_singleton in Hin. discriminate Hin.
    - intros p Hp. apply elem_of_nil in Hp. destruct Hp. }
  destruct sorter_deterministic as (Hleast & Hready & Hbuilt & Hindep).
  destruct (Hbuilt key_order tie_catalog Hkey)
    as (order & final & Horder & _ & _ & _ & _ & Hpos).
  rewrite Hrun in Horder. injection Horder as <-.
  split_and!.
  - exact Hstep.
  - vm_compute; reflexivity.
  - vm_compute; reflexivity.
  - exact (Hleast _ tie_state tie_next Hstep).
  - exact Hkey.
  - exact Hreach.
  - exact (Hready key_order tie_catalog tie_state "C" Hkey Hreach).
  - exact Hrun.
  - exact HC.
  - exact (Hpos ["B"] "A" ["C"] eq_refl).
  - exact Hrev.
  - exact (proj1 (Hindep key_order rev_order tie_catalog Hkey Hrev)).
  - exact (proj2 (Hindep key_order rev_order tie_catalog Hkey Hrev)).
Defined.
